(** * MTGA draft overlay: pack sort, badge layout, rating engine, synchronizer

    A shallow embedding of [src/ingame_overlay.py] and [src/ml_rating.py].

    Conventions of the embedding.
    - Python [int] is [Z] (or [nat] where the code only counts upwards from 0).
    - A finite Python [float] is the rational number it denotes ([Q]); the
      numpy kernels of the rating engine are parameters of its section, and
      the rounding of float arithmetic is modelled only where a world fills
      them with the single precision kernels of module [Float32].
    - A [dict] used as a map is a [gmap]; a card [dict] read only with
      [.get(key, default)] is a record of optional fields.
    - A [str] is a [string]; comparison is [String.compare], which is the
      code point order of Python on the strings considered here. *)

From Stdlib Require Import ZArith QArith Qround String Ascii List Lia.
From Stdlib Require Import Sorting.Permutation Sorting.Sorted.
From Stdlib Require Floats.SpecFloat.
From stdpp Require Import base option list sorting gmap strings.

Local Open Scope string_scope.

(** ** Finite floats *)

(** Float comparison [a < b]. *)
Definition Qlt_bool (a b : Q) : bool := negb (Qle_bool b a).

(** ** Cards *)

(** A card is a [dict]; every field is read with [card.get(field, default)]
    (or guarded by [field in card]), so each field is optional. *)
Record Card := {
  name : option string;
  rarity : option string;
  types : option (list string);
  colors : option (list string);
  color_identity : option (list string)
}.

Module Sort.

(** [_RARITY_ORDER = {"mythic": 0, "rare": 1, "uncommon": 2, "common": 3}] *)
Definition _RARITY_ORDER : gmap string nat :=
  {[ "mythic" := 0; "rare" := 1; "uncommon" := 2; "common" := 3 ]}%nat.

(** [_COLOR_SORT_TABLE = [0] * 32] followed by the 32 assignments of the
    source, in source order. *)
Definition _COLOR_SORT_TABLE : list nat :=
  foldl (fun t iv => <[fst iv := snd iv]> t) (replicate 32 0)
    [ (1, 0); (2, 1); (4, 2); (8, 3); (16, 4);
      (3, 5); (5, 6); (6, 7); (10, 8); (12, 9); (20, 10); (24, 11);
      (9, 12); (17, 13); (18, 14);
      (7, 15); (14, 16); (28, 17); (25, 18); (19, 19); (13, 20); (26, 21);
      (21, 22); (11, 23); (22, 24);
      (15, 25); (30, 26); (29, 27); (27, 28); (23, 29);
      (31, 30); (0, 31) ]%nat.

(** [_COLOR_FLAG = {"W": 1, "U": 2, "B": 4, "R": 8, "G": 16}] *)
Definition _COLOR_FLAG : gmap string nat :=
  {[ "W" := 1; "U" := 2; "B" := 4; "R" := 8; "G" := 16 ]}%nat.

(** [any(t in ("Artifact", "Land") for t in types)] *)
Definition is_artifact_or_land (tys : list string) : bool :=
  existsb (fun t => bool_decide (t = "Artifact") || bool_decide (t = "Land")) tys.

Definition _card_color_flags (card : Card) : nat :=
  let tys := default [] (types card) in
  let cols :=
    match is_artifact_or_land tys, color_identity card with
    | true, Some ci => ci
    | _, _ => default [] (colors card)
    end in
  foldl (fun flag c => Nat.lor flag (default 0%nat (_COLOR_FLAG !! c))) 0%nat cols.

(** [str.isdigit()]: true when the string is non-empty and all its
    characters are digits.  The digits considered are ['0'..'9']; Python
    also counts the other digits of the Unicode tables, which card names do
    not use.  The properties of the sort below depend on which branch of
    [mtga_draft_sort_key] a name takes, not on how the test decides. *)
Definition is_digit_char (c : ascii) : bool :=
  (48 <=? nat_of_ascii c)%nat && (nat_of_ascii c <=? 57)%nat.

Fixpoint all_digits (s : string) : bool :=
  match s with
  | EmptyString => true
  | String c s' => is_digit_char c && all_digits s'
  end.

Definition isdigit (s : string) : bool :=
  match s with
  | EmptyString => false
  | _ => all_digits s
  end.

(** The key tuple [(rarity, is_land, color_order, name)]. *)
Definition SortKey : Type := nat * nat * nat * string.

Definition card_name (card : Card) : string := default "" (name card).

Definition mtga_draft_sort_key (card : Card) : SortKey :=
  let nm := card_name card in
  if isdigit nm then (3, 1, 32, nm)%nat
  else
    let rar := default 3%nat (_RARITY_ORDER !! default "common" (rarity card)) in
    let is_land :=
      if bool_decide ("Land" ∈ default [] (types card)) then 1%nat else 0%nat in
    let color_order :=
      default 0%nat (_COLOR_SORT_TABLE !! Nat.land (_card_color_flags card) 31) in
    (rar, is_land, color_order, nm).

(** Python compares tuples lexicographically, the integers by value and the
    strings by code point. *)
Definition lex (c1 c2 : comparison) : comparison :=
  match c1 with Eq => c2 | _ => c1 end.

Definition key_compare (a b : SortKey) : comparison :=
  let '(r1, l1, c1, n1) := a in
  let '(r2, l2, c2, n2) := b in
  lex (Nat.compare r1 r2)
    (lex (Nat.compare l1 l2) (lex (Nat.compare c1 c2) (String.compare n1 n2))).

(** [a < b] on key tuples. *)
Definition key_ltb (a b : SortKey) : bool :=
  match key_compare a b with Lt => true | _ => false end.

(** [a <= b] on key tuples: not [b < a]. *)
Definition key_le (a b : SortKey) : Prop := key_ltb b a = false.

(** [sorted(cards, key=key)]: Python's sort is stable and only uses [<] on
    the keys.  Stable insertion: an element is placed before the first
    element of the sorted tail whose key is not strictly smaller. *)
Section Sorted.
Context {A : Type} (key : A → SortKey).

Fixpoint insert_by (x : A) (l : list A) : list A :=
  match l with
  | [] => [x]
  | y :: l' =>
      if key_ltb (key y) (key x) then y :: insert_by x l' else x :: y :: l'
  end.

Fixpoint sorted (l : list A) : list A :=
  match l with
  | [] => []
  | x :: l' => insert_by x (sorted l')
  end.
End Sorted.

(** The order of two elements by their keys. *)
Definition le_by {A : Type} (key : A → SortKey) (x y : A) : Prop :=
  key_le (key x) (key y).

(** The pack sort of [_position_badges]. *)
Definition sort_pack (cards : list Card) : list Card :=
  sorted mtga_draft_sort_key cards.

End Sort.

(** ** Configuration and window geometry *)

(** [configuration.features]: every attribute is read with
    [getattr(feat, attr, default)]. *)
Record Features := {
  ingame_grid_left : option Q;
  ingame_grid_right : option Q;
  ingame_grid_top : option Q;
  ingame_grid_bottom : option Q;
  ingame_overlay_debug : option bool
}.

Record Settings := { ingame_overlay_enabled : bool }.

Record Configuration := { features : Features; settings : Settings }.

(** [(left, top, right, bottom)] in screen coordinates. *)
Definition WindowRect : Type := Z * Z * Z * Z.

Module Layout.

(** [GRID_LAYOUTS]: pack size -> (columns, rows). *)
Definition GRID_LAYOUTS : gmap Z (Z * Z) :=
  list_to_map
    [ (15, (8, 2)); (14, (8, 2)); (13, (8, 2)); (12, (8, 2));
      (11, (8, 2)); (10, (8, 2)); (9, (8, 2));
      (8, (8, 1)); (7, (7, 1)); (6, (6, 1));
      (5, (5, 1)); (4, (4, 1)); (3, (3, 1)); (2, (2, 1)); (1, (1, 1)) ]%Z.

(** [int(x)] on a float: truncation towards zero. *)
Definition int (x : Q) : Z := Z.quot (Qnum x) (Z.pos (Qden x)).

(** [range(n)] *)
Definition range (n : Z) : list Z := seqZ 0 n.

Definition _calculate_card_positions
    (configuration : Configuration) (num_cards : Z) (window_rect : WindowRect)
    : list (Z * Z) :=
  if ((num_cards <=? 0) || (15 <? num_cards))%Z then []
  else
    let '(left_, top_, right_, bottom_) := window_rect in
    let w := (right_ - left_)%Z in
    let h := (bottom_ - top_)%Z in
    if ((w <=? 0) || (h <=? 0))%Z then []
    else
      let '(cols, rows) := default (8, 2)%Z (GRID_LAYOUTS !! num_cards) in
      let feat := features configuration in
      let grid_left := default 0.16%Q (ingame_grid_left feat) in
      let grid_right := default 0.826%Q (ingame_grid_right feat) in
      let grid_top := default 0.32%Q (ingame_grid_top feat) in
      let grid_bottom := default 0.654%Q (ingame_grid_bottom feat) in
      let grid_w := ((grid_right - grid_left) * inject_Z w)%Q in
      let grid_h := ((grid_bottom - grid_top) * inject_Z h)%Q in
      let grid_x0 := (inject_Z left_ + grid_left * inject_Z w)%Q in
      let grid_y0 := (inject_Z top_ + grid_top * inject_Z h)%Q in
      let cell_w := (grid_w / 8)%Q in
      let cell_h := (grid_h / 2)%Q in
      let y_offset := (cell_h * 0.08)%Q in
      map (fun idx =>
             let row_idx := (idx `div` cols)%Z in
             let col_idx := (idx `mod` cols)%Z in
             let cx := (grid_x0 + inject_Z col_idx * cell_w + cell_w / 2)%Q in
             let cy := (grid_y0 + inject_Z row_idx * cell_h + y_offset)%Q in
             let badge_x := int (cx - 15) in
             let badge_y := int cy in
             (badge_x, badge_y))
          (range num_cards).

(** The layout in the words of the specification: the calibrated grid of a
    window, whose cells are always an eighth of the grid width wide and half
    the grid height high, and the badge position of the cell at a given row
    and column. *)
Record CalibratedGrid := {
  grid_x0 : Q; grid_y0 : Q; grid_width : Q; grid_height : Q
}.

Definition calibrated_grid (configuration : Configuration) (window_rect : WindowRect)
    : CalibratedGrid :=
  let '(left_, top_, right_, bottom_) := window_rect in
  let feat := features configuration in
  let gl := default 0.16%Q (ingame_grid_left feat) in
  let gr := default 0.826%Q (ingame_grid_right feat) in
  let gt := default 0.32%Q (ingame_grid_top feat) in
  let gb := default 0.654%Q (ingame_grid_bottom feat) in
  {| grid_x0 := inject_Z left_ + gl * inject_Z (right_ - left_);
     grid_y0 := inject_Z top_ + gt * inject_Z (bottom_ - top_);
     grid_width := (gr - gl) * inject_Z (right_ - left_);
     grid_height := (gb - gt) * inject_Z (bottom_ - top_) |}%Q.

Definition cell_width (g : CalibratedGrid) : Q := (grid_width g / 8)%Q.
Definition cell_height (g : CalibratedGrid) : Q := (grid_height g / 2)%Q.

Definition cell_badge_position (g : CalibratedGrid) (row col : Z) : Z * Z :=
  (int (grid_x0 g + inject_Z col * cell_width g + cell_width g / 2 - 15),
   int (grid_y0 g + inject_Z row * cell_height g + cell_height g * 0.08))%Q.

End Layout.

(** ** Overlay synchronizer *)

Module Overlay.
Import Sort Layout.

(** [_tier_colors(rating, is_best)] returns [(background, foreground)]. *)
Definition _tier_colors (rating : Q) (is_best : bool) : string * string :=
  if is_best then ("#FFD700", "#000000")
  else if Qle_bool 90 rating then ("#FF4500", "#FFFFFF")
  else if Qle_bool 75 rating then ("#22AA22", "#FFFFFF")
  else if Qle_bool 65 rating then ("#3399DD", "#FFFFFF")
  else if Qle_bool 58 rating then ("#5577AA", "#FFFFFF")
  else if Qle_bool 52 rating then ("#778899", "#FFFFFF")
  else if Qle_bool 45 rating then ("#888888", "#FFFFFF")
  else if Qle_bool 30 rating then ("#AA4444", "#FFFFFF")
  else ("#553333", "#998888").

(** What [RatingBadge.show] configures on the badge window: the geometry,
    the label (the rating, printed with one decimal, and the debug suffix
    [(idx, short_name)] when given) and the colour pair. *)
Record Shown := {
  shown_x : Z;
  shown_y : Z;
  shown_rating : Q;
  shown_debug : option (nat * string);
  shown_bg : string;
  shown_fg : string
}.

(** A [RatingBadge].  A fresh badge is withdrawn and has an empty label.
    The click-through window style, which [show] asks the operating system
    for, is outside the model. *)
Record RatingBadge := {
  shown : option Shown;
  _visible : bool
}.

Definition new_badge : RatingBadge := {| shown := None; _visible := false |}.

Definition show (x y : Z) (rating : Q) (is_best : bool)
    (debug_info : option (nat * string)) (self : RatingBadge) : RatingBadge :=
  let '(bg, fg) := _tier_colors rating is_best in
  let debug :=
    match debug_info with
    | None => None
    | Some (idx, nm) =>
        let short_name :=
          if (10 <? String.length nm)%nat then substring 0 10 nm else nm in
        Some (idx, short_name)
    end in
  {| shown := Some {| shown_x := x; shown_y := y; shown_rating := rating;
                      shown_debug := debug; shown_bg := bg; shown_fg := fg |};
     _visible := true |}.

Definition hide (self : RatingBadge) : RatingBadge :=
  {| shown := shown self; _visible := false |}.

(** The window-location collaborator, as the operating system answers at
    the time of a call: the MTGA window if one is found, with its minimized
    state and its client rectangle ([None] when it cannot be read). *)
Record Hwnd := { hwnd_minimized : bool; hwnd_rect : option WindowRect }.

Record Env := { platform_win32 : bool; mtga_window : option Hwnd }.

Definition _find_mtga_window (env : Env) : option Hwnd :=
  if platform_win32 env then mtga_window env else None.

Definition _is_minimized (hwnd : Hwnd) : bool := hwnd_minimized hwnd.

Definition _get_mtga_rect (hwnd : Hwnd) : option WindowRect := hwnd_rect hwnd.

(** The state of an [InGameOverlay].  The timer handle [_poll_id] is left
    out: a cadence tick is one run of [_poll_tick]. *)
Record InGameOverlay := {
  _badges : list RatingBadge;
  _last_mtga_rect : option WindowRect;
  _last_pack_cards : list Card;
  _last_ratings : gmap string Q;
  _last_pick_number : Z
}.

(** [InGameOverlay.__init__], before the first tick. *)
Definition init : InGameOverlay :=
  {| _badges := []; _last_mtga_rect := None; _last_pack_cards := [];
     _last_ratings := ∅; _last_pick_number := -1 |}.

Definition set_badges (bs : list RatingBadge) (self : InGameOverlay) :=
  {| _badges := bs; _last_mtga_rect := _last_mtga_rect self;
     _last_pack_cards := _last_pack_cards self;
     _last_ratings := _last_ratings self;
     _last_pick_number := _last_pick_number self |}.

Definition set_last_mtga_rect (r : option WindowRect) (self : InGameOverlay) :=
  {| _badges := _badges self; _last_mtga_rect := r;
     _last_pack_cards := _last_pack_cards self;
     _last_ratings := _last_ratings self;
     _last_pick_number := _last_pick_number self |}.

Definition set_last (pack_cards : list Card) (ratings_dict : gmap string Q)
    (pick_number : Z) (self : InGameOverlay) :=
  {| _badges := _badges self; _last_mtga_rect := _last_mtga_rect self;
     _last_pack_cards := pack_cards;
     _last_ratings := ratings_dict;
     _last_pick_number := pick_number |}.

Definition _hide_all (self : InGameOverlay) : InGameOverlay :=
  set_badges (map hide (_badges self)) self.

(** Truth value of a list and of a dict: non-empty. *)
Definition truthy_list {A} (l : list A) : bool :=
  match l with [] => false | _ => true end.

Definition truthy_dict {V} (m : gmap string V) : bool :=
  negb (bool_decide (m = ∅)).

(** [max(iterable, default=d)]: the first of the largest items. *)
Definition py_max (d : Q) (l : list Q) : Q :=
  match l with
  | [] => d
  | x :: l' => foldl (fun best r => if Qlt_bool best r then r else best) x l'
  end.

(** [enumerate(l)] *)
Definition enumerate {A} (l : list A) : list (nat * A) :=
  zip (seq 0 (length l)) l.

(** [(name, r)] for every card of the sorted pack. *)
Definition card_ratings_of (ratings_dict : gmap string Q) (pack_cards : list Card)
    : list (string * Q) :=
  map (fun card =>
         let nm := card_name card in
         let r := default 0%Q (ratings_dict !! nm) in
         (nm, r))
      pack_cards.

(** [is_best = (rating == best_rating and rating > 0)] *)
Definition is_best_of (best_rating rating : Q) : bool :=
  Qeq_bool rating best_rating && Qlt_bool 0 rating.

Definition _position_badges (configuration : Configuration) (env : Env)
    (self : InGameOverlay) : InGameOverlay :=
  let pack_cards :=
    if truthy_list (_last_pack_cards self)
    then sorted mtga_draft_sort_key (_last_pack_cards self) else [] in
  let ratings_dict := _last_ratings self in
  if negb (truthy_list pack_cards) || negb (truthy_dict ratings_dict)
  then _hide_all self
  else
    match _find_mtga_window env with
    | None => _hide_all self
    | Some hwnd =>
        if _is_minimized hwnd then _hide_all self
        else
          match _get_mtga_rect hwnd with
          | None => _hide_all self
          | Some rect =>
              let self := set_last_mtga_rect (Some rect) self in
              let num_cards := length pack_cards in
              let positions :=
                _calculate_card_positions configuration (Z.of_nat num_cards) rect in
              if negb (length positions =? num_cards)%nat then _hide_all self
              else
                (* Ensure we have enough badge objects *)
                let badges :=
                  (_badges self
                     ++ replicate (num_cards - length (_badges self)) new_badge)%list in
                (* Determine which card has the best rating *)
                let card_ratings := card_ratings_of ratings_dict pack_cards in
                let best_rating := py_max 0 (map snd card_ratings) in
                let debug_mode :=
                  default false (ingame_overlay_debug (features configuration)) in
                let badges :=
                  foldl (fun bs item =>
                           let '(idx, (pos, (nm, rating))) := item in
                           let is_best := is_best_of best_rating rating in
                           let debug_info :=
                             if debug_mode then Some (idx, nm) else None in
                           alter (show pos.1 pos.2 rating is_best debug_info) idx bs)
                        badges (enumerate (zip positions card_ratings)) in
                (* Hide extra badges *)
                let badges :=
                  foldl (fun bs idx => alter hide idx bs) badges
                        (seq num_cards (length badges - num_cards)) in
                set_badges badges self
          end
    end.

Definition update (configuration : Configuration) (env : Env)
    (pack_cards : list Card) (ratings_dict : gmap string Q) (pick_number : Z)
    (self : InGameOverlay) : InGameOverlay :=
  if negb (ingame_overlay_enabled (settings configuration)) then _hide_all self
  else if negb (platform_win32 env) then self
  else
    _position_badges configuration env
      (set_last pack_cards ratings_dict pick_number self).

(** The public [hide_all]: clears the cached pack and ratings. *)
Definition hide_all (self : InGameOverlay) : InGameOverlay :=
  _hide_all (set_last [] ∅ (_last_pick_number self) self).

(** One cadence tick.  [_position_badges] is total in this model, so the
    [try/except] around it has nothing to catch. *)
Definition _poll_tick (configuration : Configuration) (env : Env)
    (self : InGameOverlay) : InGameOverlay :=
  if ingame_overlay_enabled (settings configuration)
     && truthy_list (_last_pack_cards self)
     && truthy_dict (_last_ratings self)
  then _position_badges configuration env self
  else self.

(** The body of the badge loop of [_position_badges], as a function of the
    index and of the item of [zip(positions, card_ratings)]. *)
Definition show_item (best_rating : Q) (debug_mode : bool) (idx : nat)
    (item : (Z * Z) * (string * Q)) : RatingBadge → RatingBadge :=
  let '(pos, (nm, rating)) := item in
  show pos.1 pos.2 rating (is_best_of best_rating rating)
       (if debug_mode then Some (idx, nm) else None).

(** The colour pair of the best-in-pack highlight, and the badges that
    carry it on screen. *)
Definition best_in_pack_colors : string * string := ("#FFD700", "#000000").

Definition marked_best (b : RatingBadge) : bool :=
  match shown b with
  | Some s =>
      _visible b && bool_decide ((shown_bg s, shown_fg s) = best_in_pack_colors)
  | None => false
  end.

(** The colour pair of the lowest tier. *)
Definition lowest_tier_colors : string * string := ("#553333", "#998888").

(** A reposition succeeds, that is [_position_badges] reaches its badge
    loop, when a pack and ratings are cached, the window is found, is not
    minimized and its rectangle [rect] is read, and the position calculator
    answers with one position per card (at most 15 cards, a rectangle of
    positive width and height). *)
Definition positive_rect (rect : WindowRect) : Prop :=
  let '(left_, top_, right_, bottom_) := rect in
  (0 < right_ - left_ ∧ 0 < bottom_ - top_)%Z.

Definition located (env : Env) (rect : WindowRect) : Prop :=
  ∃ hwnd, _find_mtga_window env = Some hwnd
          ∧ _is_minimized hwnd = false
          ∧ _get_mtga_rect hwnd = Some rect.

Definition reposition_succeeds (env : Env) (self : InGameOverlay)
    (rect : WindowRect) : Prop :=
  truthy_list (_last_pack_cards self) = true
  ∧ truthy_dict (_last_ratings self) = true
  ∧ located env rect
  ∧ (length (_last_pack_cards self) ≤ 15)%nat
  ∧ positive_rect rect.

End Overlay.

(** ** The end-to-end scenario of the specification *)

Module Scenario.
Import Overlay.

Definition card (nm : string) (tys cols : list string) : Card :=
  {| name := Some nm; rarity := None; types := Some tys; colors := Some cols;
     color_identity := None |}.

Definition forest : Card := card "0044" ["Land"] [].
Definition shock : Card := card "Shock" ["Instant"] ["R"].
Definition opt : Card := card "Opt" ["Instant"] ["U"].

Definition pack : list Card := [forest; shock; opt].

Definition ratings : gmap string Q := {[ "Shock" := 80%Q; "Opt" := 60%Q ]}.

(** Two cards tied at the maximum. *)
Definition tied_ratings : gmap string Q := {[ "Shock" := 80%Q; "Opt" := 80%Q ]}.

Definition no_features : Features :=
  {| ingame_grid_left := None; ingame_grid_right := None;
     ingame_grid_top := None; ingame_grid_bottom := None;
     ingame_overlay_debug := None |}.

Definition enabled : Configuration :=
  {| features := no_features; settings := {| ingame_overlay_enabled := true |} |}.

Definition disabled : Configuration :=
  {| features := no_features; settings := {| ingame_overlay_enabled := false |} |}.

Definition rect : WindowRect := (100, 100, 1100, 600)%Z.

Definition env : Env :=
  {| platform_win32 := true;
     mtga_window := Some {| hwnd_minimized := false; hwnd_rect := Some rect |} |}.

(** The overlay after [update(pack, ratings, 1)] on a fresh overlay. *)
Definition shown_overlay : InGameOverlay :=
  update enabled env pack ratings 1 init.

End Scenario.

(** ** Rating engine *)

Module Rating.

(** An exception, with its message. *)
Definition Exn : Type := string.

(** A method of an object with state [S]: it returns a value or raises, and
    in both cases leaves the object in a new state. *)
Definition M (S A : Type) : Type := S → (Exn + A) * S.

Definition ret {S A} (a : A) : M S A := fun s => (inr a, s).

Definition raise {S A} (e : Exn) : M S A := fun s => (inl e, s).

Definition bind {S A B} (c : M S A) (k : A → M S B) : M S B :=
  fun s =>
    match c s with
    | (inl e, s') => (inl e, s')
    | (inr a, s') => k a s'
    end.

(** [try: body except Exception as e: handler(e)] *)
Definition try_except {S A} (body : M S A) (handler : Exn → M S A) : M S A :=
  fun s =>
    match body s with
    | (inl e, s') => handler e s'
    | (inr a, s') => (inr a, s')
    end.

Definition gets {S A} (f : S → A) : M S A := fun s => (inr (f s), s).

Definition modify {S} (f : S → S) : M S unit := fun s => (inr tt, f s).

(** The outcome of a call that does not touch the object. *)
Definition lift {S A} (r : Exn + A) : M S A := fun s => (r, s).

#[export] Instance M_ret {S} : MRet (M S) := fun A a => ret a.

#[export] Instance M_bind {S} : MBind (M S) := fun A B k c => bind c k.

(** What the engine calls and does not own: the availability of the
    inference runtime, the file system, the artifact and vocabulary loaders,
    the inference run, and the numpy kernels of the normalisation.  A call
    that can raise returns [inl]. *)
Record World (Session : Type) := {
  ONNX_AVAILABLE : bool;
  (** [os.path.join] *)
  os_path_join : list string → string;
  (** [os.path.exists] *)
  os_path_exists : string → bool;
  (** [ort.InferenceSession(model_path)] *)
  InferenceSession : string → Exn + Session;
  (** [pd.read_csv(csv_path)["name"].tolist()] *)
  read_csv_names : string → Exn + list string;
  (** [session.run(None, {inputs[0]: collection, inputs[1]: pack})[0].flatten()] *)
  session_run : Session → list Q → list Q → Exn + list Q;
  (** [np.mean], [np.std] *)
  np_mean : list Q → Q;
  np_std : list Q → Q;
  (** [100 / (1 + np.exp(-1.2 * (x - mean) / std))], as [logistic mean std x] *)
  logistic : Q → Q → Q → Q
}.

Arguments ONNX_AVAILABLE {Session}.
Arguments os_path_join {Session}.
Arguments os_path_exists {Session}.
Arguments InferenceSession {Session}.
Arguments read_csv_names {Session}.
Arguments session_run {Session}.
Arguments np_mean {Session}.
Arguments np_std {Session}.
Arguments logistic {Session}.

Record MLModelManager (Session : Type) := {
  model_directory : string;
  _sessions : gmap string Session;
  _cardnames : gmap string (list string)
}.

Arguments model_directory {Session}.
Arguments _sessions {Session}.
Arguments _cardnames {Session}.

Record MLRatingCalculator (Session : Type) := {
  model_manager : MLModelManager Session;
  _current_ratings : gmap string Q;
  _current_set : string;
  _current_mode : string
}.

Arguments model_manager {Session}.
Arguments _current_ratings {Session}.
Arguments _current_set {Session}.
Arguments _current_mode {Session}.

(** [round(x, 1)]: the nearest multiple of a tenth, a tie going to the even
    one. *)
Definition round1 (x : Q) : Q :=
  let t := (x * 10)%Q in
  let n := Qfloor t in
  let r := (t - inject_Z n)%Q in
  let k :=
    if Qlt_bool r (1 # 2) then n
    else if Qlt_bool (1 # 2) r then (n + 1)%Z
    else if Z.even n then n else (n + 1)%Z in
  Qred (inject_Z k / 10).

(** [l.index(x)]: the first position of [x]. *)
Fixpoint list_index (x : string) (l : list string) : option nat :=
  match l with
  | [] => None
  | y :: l' => if bool_decide (y = x) then Some 0%nat else S <$> list_index x l'
  end.

Section Engine.
Context {Session : Type} (world : World Session).

Definition set_sessions (m : gmap string Session) (self : MLModelManager Session) :=
  {| model_directory := model_directory self; _sessions := m;
     _cardnames := _cardnames self |}.

Definition set_cardnames (m : gmap string (list string))
    (self : MLModelManager Session) :=
  {| model_directory := model_directory self; _sessions := _sessions self;
     _cardnames := m |}.

(** The loop [for try_mode in modes_to_try] of [get_model]; falling out of
    the loop logs a warning and returns [None]. *)
Fixpoint get_model_loop (cache_key set_code : string) (modes_to_try : list string)
    : M (MLModelManager Session) (option Session) :=
  match modes_to_try with
  | [] => ret None
  | try_mode :: rest =>
      model_directory ← gets model_directory;
      let model_path :=
        os_path_join world
          [model_directory; "onnx"; set_code ++ "_" ++ try_mode ++ ".onnx"] in
      if os_path_exists world model_path then
        try_except
          (session ← lift (InferenceSession world model_path);
           modify (fun self =>
                     set_sessions (<[cache_key := session]> (_sessions self)) self);;
           ret (Some session))
          (fun e => ret None)
      else get_model_loop cache_key set_code rest
  end.

Definition get_model (set_code mode : string)
    : M (MLModelManager Session) (option Session) :=
  if negb (ONNX_AVAILABLE world) then ret None
  else
    let cache_key := set_code ++ "_" ++ mode in
    sessions ← gets _sessions;
    match sessions !! cache_key with
    | Some session => ret (Some session)
    | None =>
        let modes_to_try :=
          if bool_decide (mode = "Premier") then [mode; "PickTwo"] else [mode] in
        get_model_loop cache_key set_code modes_to_try
    end.

Definition get_cardnames (set_code : string)
    : M (MLModelManager Session) (option (list string)) :=
  cached ← gets _cardnames;
  match cached !! set_code with
  | Some cardnames => ret (Some cardnames)
  | None =>
      model_directory ← gets model_directory;
      let csv_path :=
        os_path_join world [model_directory; "cards"; set_code ++ ".csv"] in
      if negb (os_path_exists world csv_path) then ret None
      else
        try_except
          (cardnames ← lift (read_csv_names world csv_path);
           modify (fun self =>
                     set_cardnames (<[set_code := cardnames]> (_cardnames self)) self);;
           ret (Some cardnames))
          (fun e => ret None)
  end.

Definition set_model_manager (mgr : MLModelManager Session)
    (self : MLRatingCalculator Session) :=
  {| model_manager := mgr; _current_ratings := _current_ratings self;
     _current_set := _current_set self; _current_mode := _current_mode self |}.

(** A method of the manager, called on the calculator's [model_manager]. *)
Definition on_manager {A} (c : M (MLModelManager Session) A)
    : M (MLRatingCalculator Session) A :=
  fun self =>
    let '(r, mgr) := c (model_manager self) in
    (r, set_model_manager mgr self).

Definition set_current (ratings : gmap string Q) (set_code mode : string)
    (self : MLRatingCalculator Session) :=
  {| model_manager := model_manager self; _current_ratings := ratings;
     _current_set := set_code; _current_mode := mode |}.

(** The collection vector: zeros, then [vector[cardnames.index(name)] += 1]
    for every pool name that is in the vocabulary. *)
Definition collection_vector_of (cardnames pool_names : list string) : list Q :=
  foldl (fun v nm =>
           match list_index nm cardnames with
           | Some idx => alter (fun c => (c + 1)%Q) idx v
           | None => v
           end)
        (replicate (length cardnames) 0%Q) pool_names.

(** [{name: round(float(ratings[i]), 1) for i, name in enumerate(cardnames)}];
    [ratings[i]] raises [IndexError] out of range. *)
Fixpoint build_ratings (items : list (nat * string)) (ratings : list Q)
    (acc : gmap string Q) : Exn + gmap string Q :=
  match items with
  | [] => inr acc
  | (i, nm) :: rest =>
      match ratings !! i with
      | None => inl "IndexError"
      | Some r => build_ratings rest ratings (<[nm := round1 r]> acc)
      end
  end.

(** The normalisation of the raw scores to the 0-100 scale. *)
Definition normalize (raw_scores : list Q) : list Q :=
  let mean := np_mean world raw_scores in
  let std := np_std world raw_scores in
  if Qlt_bool 0 std then map (logistic world mean std) raw_scores
  else map (fun _ => 50%Q) raw_scores.

Definition compute_ratings (pool_names : list string) (set_code mode : string)
    : M (MLRatingCalculator Session) (gmap string Q) :=
  if negb (ONNX_AVAILABLE world) then ret ∅
  else
    session ← on_manager (get_model set_code mode);
    match session with
    | None => ret ∅
    | Some session =>
        cardnames ← on_manager (get_cardnames set_code);
        match cardnames with
        | None => ret ∅
        | Some cardnames =>
            try_except
              (let collection_vector := collection_vector_of cardnames pool_names in
               let pack_vector := replicate (length cardnames) 1%Q in
               raw_scores ←
                 lift (session_run world session collection_vector pack_vector);
               let ratings := normalize raw_scores in
               result ←
                 lift (build_ratings (Overlay.enumerate cardnames) ratings ∅);
               modify (set_current result set_code mode);;
               ret result)
              (fun e => ret ∅)
        end
    end.

(** A context does not resolve for a manager when [get_model] returns
    [None], or returns a session and [get_cardnames] then returns
    [None]. *)
Definition unresolvable (set_code mode : string)
    (mgr : MLModelManager Session) : Prop :=
  (get_model set_code mode mgr).1 = inr None
  ∨ ∃ session mgr',
      get_model set_code mode mgr = (inr (Some session), mgr')
      ∧ (get_cardnames set_code mgr').1 = inr None.
End Engine.

(** A small world for examples: one artifact, [TST_Premier.onnx], whose
    session scores every card alike, and the vocabulary [TST.csv].  The
    stand-in for [np.std] is the population variance, which is positive
    exactly when the standard deviation is; the stand-in for the logistic
    map is linear. *)
Module Example.

Definition mean (l : list Q) : Q :=
  (foldr Qplus 0 l / inject_Z (Z.of_nat (length l)))%Q.

Definition variance (l : list Q) : Q :=
  mean (map (fun x => (x - mean l) * (x - mean l))%Q l).

Definition world : World unit :=
  {| ONNX_AVAILABLE := true;
     os_path_join := fun parts => String.concat "/" parts;
     os_path_exists := fun path =>
       bool_decide (path = "models/onnx/TST_Premier.onnx")
       || bool_decide (path = "models/cards/TST.csv");
     InferenceSession := fun _ => inr tt;
     read_csv_names := fun _ => inr ["Opt"; "Shock"; "Opt"];
     session_run := fun _ collection _ => inr (map (fun _ => 7 # 2) collection);
     np_mean := mean;
     np_std := variance;
     logistic := fun mean std x => (50 + (x - mean) / std)%Q |}.

Definition manager : MLModelManager unit :=
  {| model_directory := "models"; _sessions := ∅; _cardnames := ∅ |}.

Definition calculator : MLRatingCalculator unit :=
  {| model_manager := manager; _current_ratings := ∅;
     _current_set := ""; _current_mode := "" |}.

End Example.

End Rating.

(** ** The parts of the sort key *)

Module KeyParts.
Import Sort.

(** The three ranks that [mtga_draft_sort_key] computes for a card whose
    name is not all digits. *)
Definition rarity_rank (card : Card) : nat :=
  default 3%nat (_RARITY_ORDER !! default "common" (rarity card)).

Definition land_flag (card : Card) : nat :=
  if bool_decide ("Land" ∈ default [] (types card)) then 1%nat else 0%nat.

Definition color_rank (card : Card) : nat :=
  default 0%nat (_COLOR_SORT_TABLE !! Nat.land (_card_color_flags card) 31).

(** The colours [_card_color_flags] reads: [color_identity] for an artifact
    or a land that has one, [colors] otherwise. *)
Definition card_colors (card : Card) : list string :=
  match is_artifact_or_land (default [] (types card)), color_identity card with
  | true, Some ci => ci
  | _, _ => default [] (colors card)
  end.

(** [_COLOR_FLAG.get(c, 0)] *)
Definition flag_of (c : string) : nat := default 0%nat (_COLOR_FLAG !! c).

(** The flag value of a colour symbol when it occurs among the colours. *)
Definition bit_if (cols : list string) (c : string) (v : nat) : nat :=
  if bool_decide (c ∈ cols) then v else 0%nat.

(** The mask as a sum over the five colour symbols. *)
Definition color_mask (cols : list string) : nat :=
  (bit_if cols "W" 1 + bit_if cols "U" 2 + bit_if cols "B" 4
   + bit_if cols "R" 8 + bit_if cols "G" 16)%nat.

End KeyParts.

(** ** The rest of the rating engine *)

Module RatingApi.
Import Rating.

Section Api.
Context {Session : Type}.

(** [MLModelManager.set_model_directory] *)
Definition set_model_directory (path : string) (self : MLModelManager Session)
    : MLModelManager Session :=
  {| model_directory := path; _sessions := ∅; _cardnames := ∅ |}.

(** [MLRatingCalculator.get_rating] *)
Definition get_rating (card_name : string) (self : MLRatingCalculator Session)
    : option Q :=
  _current_ratings self !! card_name.

(** [MLRatingCalculator.has_ratings] *)
Definition has_ratings (self : MLRatingCalculator Session) : bool :=
  bool_decide (0 < size (_current_ratings self))%nat.

End Api.

End RatingApi.

(** ** Model updates *)

Module ModelUpdate.
Import Rating.

(** The parsed release document: a [dict] with an optional ["tag_name"] and
    an optional list of ["assets"], each a [dict] read with
    [asset["name"]] and [asset["browser_download_url"]], which raise
    [KeyError] on a missing key. *)
Record Asset := {
  asset_name : option string;
  browser_download_url : option string
}.

Record Release := {
  tag_name : option string;
  assets : option (list Asset)
}.

(** [s.endswith(suffix)] *)
Definition endswith (s suffix : string) : bool :=
  (String.length suffix <=? String.length s)%nat
  && String.eqb
       (substring (String.length s - String.length suffix)
          (String.length suffix) s)
       suffix.

(** The loop [for asset in release.get("assets", [])]; falling out of the
    loop logs a warning and returns [None]. *)
Fixpoint find_zip_asset (tag : string) (release_assets : list Asset)
    : Exn + option (string * string) :=
  match release_assets with
  | [] => inr None
  | asset :: rest =>
      match asset_name asset with
      | None => inl "KeyError"
      | Some nm =>
          if endswith nm ".zip" then
            match browser_download_url asset with
            | None => inl "KeyError"
            | Some url => inr (Some (tag, url))
            end
          else find_zip_asset tag rest
      end
  end.

(** [ModelUpdate.check_for_update].  [fetched] is the outcome of the request
    and of [json.loads]: the release document, or the exception raised. *)
Definition check_for_update (fetched : Exn + Release) (current_tag : string)
    : option (string * string) :=
  let body : Exn + option (string * string) :=
    match fetched with
    | inl e => inl e
    | inr release =>
        let tag := default "" (tag_name release) in
        if bool_decide (tag = "") || bool_decide (tag = current_tag)
        then inr None
        else find_zip_asset tag (default [] (assets release))
    end in
  match body with
  | inl error => None
  | inr result => result
  end.

End ModelUpdate.

(** ** The normalisation in single precision *)

(** The raw scores are a [float32] array, and numpy keeps their mean, their
    standard deviation and the normalised ratings in [float32].  IEEE 754
    binary32 has 24 bits of precision and rounds every operation to the
    nearest value, a tie going to the even mantissa. *)
Module Float32.
Import SpecFloat.

Definition prec : Z := 24.
Definition emax : Z := 128.

Definition float32 : Type := spec_float.

Definition add : float32 → float32 → float32 := SFadd prec emax.
Definition sub : float32 → float32 → float32 := SFsub prec emax.
Definition mul : float32 → float32 → float32 := SFmul prec emax.
Definition div : float32 → float32 → float32 := SFdiv prec emax.
Definition sqrt : float32 → float32 := SFsqrt prec emax.

Definition of_Z (z : Z) : float32 := binary_normalize prec emax z 0 false.

(** The [float32] nearest to a rational: the quotient of numerator and
    denominator, rounded once. *)
Definition of_Q (q : Q) : float32 :=
  match Qnum q with
  | Z0 => S754_zero false
  | Zpos n => div (S754_finite false n 0) (S754_finite false (Qden q) 0)
  | Zneg n => div (S754_finite true n 0) (S754_finite false (Qden q) 0)
  end.

(** The rational a finite [float32] denotes; an infinity or a NaN denotes
    none, and is sent to 0. *)
Definition to_Q (x : float32) : Q :=
  match x with
  | S754_finite s m e =>
      let v := (inject_Z (Zpos m) * Qpower 2 e)%Q in
      Qred (if s then - v else v)
  | _ => 0%Q
  end.

(** [np.add.reduce] on an array of fewer than eight items: a running sum
    from 0, left to right.  (Longer arrays are summed pairwise.) *)
Definition sum (a : list float32) : float32 := foldl add (of_Z 0) a.

(** [np.mean]: the sum divided by the number of items. *)
Definition mean (a : list float32) : float32 :=
  div (sum a) (of_Z (Z.of_nat (length a))).

(** [np.std]: the square root of the mean of the squared deviations from
    the mean. *)
Definition std (a : list float32) : float32 :=
  let arrmean := mean a in
  let x := map (fun v => sub v arrmean) a in
  let x := map (fun v => mul v v) x in
  sqrt (div (sum x) (of_Z (Z.of_nat (length a)))).

(** [1 + z + z^2/2! + ... ], [n] terms after [term], the term of index
    [k - 1]. *)
Fixpoint exp_series (n : nat) (z term : Q) (k : Z) : Q :=
  match n with
  | O => term
  | S n => Qred (term + exp_series n z (Qred (term * z / inject_Z k)) (k + 1))
  end.

(** [np.exp].  IEEE 754 does not fix the result of the exponential; this one
    rounds its Taylor polynomial of degree 12, which is within 4e-9 of the
    exponential for arguments of magnitude at most 1.25. *)
Definition exp (x : float32) : float32 := of_Q (exp_series 12 (to_Q x) 1 1).

(** [100 / (1 + np.exp(-1.2 * (x - mean) / std))] *)
Definition logistic (mean std x : float32) : float32 :=
  div (of_Z 100)
    (add (of_Z 1) (exp (div (mul (of_Q (-12 # 10)) (sub x mean)) std))).

End Float32.

(** A world whose numpy kernels are the single precision ones, with one
    artifact, [TST_Premier.onnx], and a vocabulary of seven names.  The
    session gives every card the same raw score, [np.float32(0.1)]. *)
Module SinglePrecision.
Import Rating.

Definition cardnames : list string :=
  ["Duress"; "Forest"; "Negate"; "Opt"; "Plummet"; "Shock"; "Titanic Growth"].

(** [np.float32(0.1)], which is 13421773 / 2^27 *)
Definition score : Q := 13421773 # 134217728.

Definition world : World unit :=
  {| ONNX_AVAILABLE := true;
     os_path_join := fun parts => String.concat "/" parts;
     os_path_exists := fun path =>
       bool_decide (path = "models/onnx/TST_Premier.onnx")
       || bool_decide (path = "models/cards/TST.csv");
     InferenceSession := fun _ => inr tt;
     read_csv_names := fun _ => inr cardnames;
     session_run := fun _ collection _ => inr (map (fun _ => score) collection);
     np_mean := fun a => Float32.to_Q (Float32.mean (map Float32.of_Q a));
     np_std := fun a => Float32.to_Q (Float32.std (map Float32.of_Q a));
     logistic := fun mean std x =>
       Float32.to_Q
         (Float32.logistic (Float32.of_Q mean) (Float32.of_Q std)
            (Float32.of_Q x)) |}.

End SinglePrecision.

(** * Properties *)

Module SortFacts.
Import Sort.

(** *** The order on strings *)

Lemma ascii_compare_refl (c : ascii) : Ascii.compare c c = Eq.
Proof. unfold Ascii.compare. apply N.compare_refl. Qed.

Lemma ascii_compare_lt_trans (a b c : ascii) :
  Ascii.compare a b = Lt → Ascii.compare b c = Lt → Ascii.compare a c = Lt.
Proof.
  unfold Ascii.compare. rewrite !N.compare_lt_iff. apply N.lt_trans.
Qed.

Lemma string_compare_refl (s : string) : String.compare s s = Eq.
Proof.
  induction s as [|c s IH]; simpl; [done|]. by rewrite ascii_compare_refl.
Qed.

Lemma string_compare_lt_trans (s1 s2 s3 : string) :
  String.compare s1 s2 = Lt → String.compare s2 s3 = Lt →
  String.compare s1 s3 = Lt.
Proof.
  revert s2 s3. induction s1 as [|c1 s1 IH]; intros [|c2 s2] [|c3 s3]; simpl;
    try done.
  destruct (Ascii.compare c1 c2) eqn:H12; try done;
    destruct (Ascii.compare c2 c3) eqn:H23; try done; intros Ha Hb.
  - apply Ascii.compare_eq_iff in H12, H23. subst.
    rewrite ascii_compare_refl. eauto.
  - apply Ascii.compare_eq_iff in H12. subst. by rewrite H23.
  - apply Ascii.compare_eq_iff in H23. subst. by rewrite H12.
  - by rewrite (ascii_compare_lt_trans _ _ _ H12 H23).
Qed.

(** *** The order on key tuples *)

Lemma lex_opp (c1 c2 : comparison) : CompOpp (lex c1 c2) = lex (CompOpp c1) (CompOpp c2).
Proof. by destruct c1. Qed.

Lemma key_compare_antisym (a b : SortKey) :
  key_compare a b = CompOpp (key_compare b a).
Proof.
  destruct a as [[[r1 l1] c1] n1], b as [[[r2 l2] c2] n2]. simpl.
  rewrite !lex_opp, <- !Nat.compare_antisym, <- String.compare_antisym. done.
Qed.

Lemma key_compare_refl (a : SortKey) : key_compare a a = Eq.
Proof.
  destruct a as [[[r l] c] n]. simpl.
  by rewrite !Nat.compare_refl, string_compare_refl.
Qed.

Lemma key_compare_eq (a b : SortKey) : key_compare a b = Eq → a = b.
Proof.
  destruct a as [[[r1 l1] c1] n1], b as [[[r2 l2] c2] n2]. simpl.
  destruct (Nat.compare_spec r1 r2); simpl; try done.
  destruct (Nat.compare_spec l1 l2); simpl; try done.
  destruct (Nat.compare_spec c1 c2); simpl; try done.
  intros ->%String.compare_eq_iff. by subst.
Qed.

Lemma key_compare_lt_trans (a b c : SortKey) :
  key_compare a b = Lt → key_compare b c = Lt → key_compare a c = Lt.
Proof.
  destruct a as [[[r1 l1] c1] n1], b as [[[r2 l2] c2] n2],
    c as [[[r3 l3] c3] n3]. simpl.
  destruct (Nat.compare_spec r1 r2), (Nat.compare_spec r2 r3); simpl;
    try done; subst;
    [| intros; by (destruct (Nat.compare_spec r2 r3); try lia)
     | intros; by (destruct (Nat.compare_spec r1 r3); try lia)
     | intros; by (destruct (Nat.compare_spec r1 r3); try lia)].
  rewrite Nat.compare_refl. simpl.
  destruct (Nat.compare_spec l1 l2), (Nat.compare_spec l2 l3); simpl;
    try done; subst;
    [| intros; by (destruct (Nat.compare_spec l2 l3); try lia)
     | intros; by (destruct (Nat.compare_spec l1 l3); try lia)
     | intros; by (destruct (Nat.compare_spec l1 l3); try lia)].
  rewrite Nat.compare_refl. simpl.
  destruct (Nat.compare_spec c1 c2), (Nat.compare_spec c2 c3); simpl;
    try done; subst;
    [| intros; by (destruct (Nat.compare_spec c2 c3); try lia)
     | intros; by (destruct (Nat.compare_spec c1 c3); try lia)
     | intros; by (destruct (Nat.compare_spec c1 c3); try lia)].
  rewrite Nat.compare_refl. simpl. apply string_compare_lt_trans.
Qed.

Lemma key_ltb_lt (a b : SortKey) : key_ltb a b = true ↔ key_compare a b = Lt.
Proof. unfold key_ltb. destruct (key_compare a b); naive_solver. Qed.

Lemma key_ltb_asym (a b : SortKey) : key_ltb a b = true → key_ltb b a = false.
Proof.
  unfold key_ltb. rewrite (key_compare_antisym b a).
  by destruct (key_compare a b).
Qed.

Lemma key_le_trans (a b c : SortKey) : key_le a b → key_le b c → key_le a c.
Proof.
  unfold key_le, key_ltb. intros Hab Hbc.
  rewrite (key_compare_antisym b a) in Hab.
  rewrite (key_compare_antisym c b) in Hbc.
  rewrite (key_compare_antisym c a).
  destruct (key_compare a b) eqn:E1; try done;
    destruct (key_compare b c) eqn:E2; try done.
  - apply key_compare_eq in E1. subst. by rewrite E2.
  - apply key_compare_eq in E1. subst. by rewrite E2.
  - apply key_compare_eq in E2. subst. by rewrite E1.
  - by rewrite (key_compare_lt_trans _ _ _ E1 E2).
Qed.

(** *** The stable sort *)

Section SortedFacts.
Context {A : Type} (key : A → SortKey).

Lemma insert_by_perm (x : A) (l : list A) : insert_by key x l ≡ₚ x :: l.
Proof.
  induction l as [|y l IH]; simpl; [done|].
  destruct (key_ltb (key y) (key x)); [|done].
  rewrite IH. apply Permutation_swap.
Qed.

Lemma sorted_perm (l : list A) : sorted key l ≡ₚ l.
Proof.
  induction l as [|x l IH]; simpl; [done|].
  by rewrite insert_by_perm, IH.
Qed.

Lemma sorted_length (l : list A) : length (sorted key l) = length l.
Proof. by rewrite sorted_perm. Qed.

Lemma insert_by_sorted (x : A) (l : list A) :
  StronglySorted (le_by key) l → StronglySorted (le_by key) (insert_by key x l).
Proof.
  induction 1 as [|y l Hl IH Hy]; simpl.
  - repeat constructor.
  - destruct (key_ltb (key y) (key x)) eqn:E.
    + constructor; [done|].
      rewrite insert_by_perm. constructor; [|done].
      by apply key_ltb_asym.
    + constructor; [by constructor|].
      constructor; [done|].
      eapply Forall_impl; [exact Hy|].
      intros z Hz. by apply key_le_trans with (key y).
Qed.

Lemma sorted_sorted (l : list A) : StronglySorted (le_by key) (sorted key l).
Proof.
  induction l as [|x l IH]; simpl; [constructor|]. by apply insert_by_sorted.
Qed.

(** A list whose neighbours are in order is left as it is. *)
Lemma sorted_fixed (l : list A) : Sorted (le_by key) l → sorted key l = l.
Proof.
  induction 1 as [|x l Hl IH Hx]; simpl; [done|].
  rewrite IH. destruct Hx as [|y l Hxy]; simpl; [done|].
  unfold le_by, key_le in Hxy. by rewrite Hxy.
Qed.

Lemma sorted_idempotent (l : list A) : sorted key (sorted key l) = sorted key l.
Proof. apply sorted_fixed, StronglySorted_Sorted, sorted_sorted. Qed.

(** Stability: cards with the same key keep their relative order. *)
Lemma insert_by_filter (P : A → bool) (x : A) (l : list A) :
  (∀ y, P y = true → key_ltb (key y) (key x) = true → P x = false) →
  List.filter P (insert_by key x l) = List.filter P (x :: l).
Proof.
  intros HP. induction l as [|y l IH]; simpl; [done|].
  destruct (key_ltb (key y) (key x)) eqn:E; simpl; [|done].
  rewrite IH. simpl. destruct (P y) eqn:Py; [|done].
  by rewrite (HP y Py E).
Qed.

Lemma sorted_stable (k : SortKey) (l : list A) :
  List.filter (fun x => bool_decide (key x = k)) (sorted key l)
  = List.filter (fun x => bool_decide (key x = k)) l.
Proof.
  induction l as [|x l IH]; simpl; [done|].
  rewrite insert_by_filter; [simpl; by rewrite IH|].
  intros y Hy%bool_decide_eq_true Hlt. apply bool_decide_eq_false.
  intros Hx. rewrite Hy, Hx in Hlt.
  apply key_ltb_lt in Hlt. by rewrite key_compare_refl in Hlt.
Qed.

(** In the output an element at a smaller index is below one at a larger. *)
Lemma sorted_lookup_le (l : list A) (i j : nat) (x y : A) :
  sorted key l !! i = Some x → sorted key l !! j = Some y → (i < j)%nat →
  le_by key x y.
Proof.
  intros Hi Hj Hij.
  pose proof (sorted_sorted l) as Hs.
  pose proof (take_drop_middle _ _ _ Hi) as Hsplit.
  assert (Hlen : length (take i (sorted key l)) = i).
  { apply length_take_le. apply lookup_lt_Some in Hi. lia. }
  rewrite <- Hsplit in Hs, Hj.
  rewrite lookup_app_r in Hj by lia.
  rewrite Hlen in Hj.
  destruct (j - i) as [|k] eqn:E; [lia|]. simpl in Hj.
  apply StronglySorted_app in Hs as (_ & _ & Hs).
  apply StronglySorted_cons in Hs as [Hall _].
  rewrite Forall_lookup in Hall. eauto.
Qed.
End SortedFacts.

(** *** The sort key *)

Lemma rarity_order_le (r : string) : (default 3 (_RARITY_ORDER !! r) ≤ 3)%nat.
Proof.
  destruct (_RARITY_ORDER !! r) as [v|] eqn:H; simpl; [|lia].
  unfold _RARITY_ORDER in H.
  repeat (apply lookup_insert_Some in H as [[_ <-]|[_ H]]; [lia|]).
  apply lookup_singleton_Some in H as [_ <-]. lia.
Qed.

Lemma color_table_le (i : nat) : (default 0 (_COLOR_SORT_TABLE !! i) ≤ 31)%nat.
Proof.
  assert (Hall : Forall (fun v => (v ≤ 31)%nat) _COLOR_SORT_TABLE).
  { vm_compute. repeat constructor; lia. }
  destruct (_COLOR_SORT_TABLE !! i) as [v|] eqn:H; simpl; [|lia].
  rewrite Forall_lookup in Hall. eauto.
Qed.

(** The masked flag is always an index of the table: the default of the
    lookup is never taken. *)
Lemma color_index_in_table (card : Card) :
  is_Some (_COLOR_SORT_TABLE !! Nat.land (_card_color_flags card) 31).
Proof.
  apply lookup_lt_is_Some.
  change (length _COLOR_SORT_TABLE) with 32.
  change 31 with (Nat.ones 5). rewrite Nat.land_ones.
  apply Nat.mod_upper_bound. done.
Qed.

Lemma digit_key (card : Card) :
  isdigit (card_name card) = true →
  mtga_draft_sort_key card = (3, 1, 32, card_name card).
Proof. unfold mtga_draft_sort_key. by intros ->. Qed.

Lemma digit_key_above (d c : Card) :
  isdigit (card_name d) = true → isdigit (card_name c) = false →
  key_ltb (mtga_draft_sort_key c) (mtga_draft_sort_key d) = true.
Proof.
  intros Hd Hc. rewrite (digit_key d Hd).
  unfold mtga_draft_sort_key. rewrite Hc.
  pose proof (rarity_order_le (default "common" (rarity c))) as Hr.
  pose proof (color_table_le (Nat.land (_card_color_flags c) 31)) as Hcol.
  apply key_ltb_lt. cbn [key_compare].
  set (r := default 3 _) in *. set (co := default 0 _) in *.
  destruct (Nat.compare_spec r 3); simpl; [|done|lia].
  case_bool_decide; simpl; [|done].
  destruct (Nat.compare_spec co 32); simpl; [lia|done|lia].
Qed.

(** C2: the sort key of a card whose name is all digits is strictly greater
    than the sort key of a card whose name is not, whatever the rarity,
    types and colours of the two cards; and in the output of the pack sort
    every digit-named card stands at a larger index than every card that is
    not digit-named. *)
Theorem digit_named_cards_sort_last :
  (∀ d c : Card,
     isdigit (card_name d) = true → isdigit (card_name c) = false →
     key_ltb (mtga_draft_sort_key c) (mtga_draft_sort_key d) = true
     ∧ key_ltb (mtga_draft_sort_key d) (mtga_draft_sort_key c) = false)
  ∧ (∀ (cards : list Card) (i j : nat) (d c : Card),
       sort_pack cards !! i = Some d → sort_pack cards !! j = Some c →
       isdigit (card_name d) = true → isdigit (card_name c) = false →
       (j < i)%nat).
Proof.
  split.
  - intros d c Hd Hc. pose proof (digit_key_above d c Hd Hc) as H.
    split; [done|]. by apply key_ltb_asym.
  - intros cards i j d c Hi Hj Hd Hc.
    destruct (Nat.lt_trichotomy i j) as [Hlt|[->|Hgt]]; [|congruence|done].
    pose proof (sorted_lookup_le mtga_draft_sort_key cards i j d c Hi Hj Hlt) as Hle.
    unfold le_by, key_le in Hle.
    by rewrite (digit_key_above d c Hd Hc) in Hle.
Qed.

Lemma digit_named_cards_sort_last_witness :
  (key_ltb (mtga_draft_sort_key Scenario.shock)
           (mtga_draft_sort_key Scenario.forest) = true
   ∧ key_ltb (mtga_draft_sort_key Scenario.forest)
             (mtga_draft_sort_key Scenario.shock) = false)
  ∧ (1 < 2)%nat.
Proof.
  split.
  - apply (proj1 digit_named_cards_sort_last Scenario.forest Scenario.shock);
      reflexivity.
  - apply (proj2 digit_named_cards_sort_last Scenario.pack 2 1
             Scenario.forest Scenario.shock); reflexivity.
Defined.

(** C7: the pack sort is idempotent: sorting the output of the sort returns
    it unchanged. *)
Theorem sort_pack_idempotent (cards : list Card) :
  sort_pack (sort_pack cards) = sort_pack cards.
Proof. apply sorted_idempotent. Qed.

End SortFacts.

Module LayoutFacts.
Import Layout.

Lemma grid_layout_small (n : Z) :
  (1 ≤ n ≤ 8)%Z →
  ∃ cols rows, GRID_LAYOUTS !! n = Some (cols, rows) ∧ (n ≤ cols)%Z ∧ rows = 1%Z.
Proof.
  intros Hn.
  assert (n = 1 ∨ n = 2 ∨ n = 3 ∨ n = 4 ∨ n = 5 ∨ n = 6 ∨ n = 7 ∨ n = 8)%Z
    as Hcases by lia.
  repeat destruct Hcases as [->|Hcases]; try subst n;
    eexists _, _; (split; [vm_compute; reflexivity|]); split; (lia || done).
Qed.

Lemma grid_layout_large (n : Z) :
  (9 ≤ n ≤ 15)%Z → GRID_LAYOUTS !! n = Some (8, 2)%Z.
Proof.
  intros Hn.
  assert (n = 9 ∨ n = 10 ∨ n = 11 ∨ n = 12 ∨ n = 13 ∨ n = 14 ∨ n = 15)%Z
    as Hcases by lia.
  repeat destruct Hcases as [->|Hcases]; try subst n; vm_compute; reflexivity.
Qed.

Lemma range_bounds (n idx : Z) : idx ∈ range n → (0 ≤ idx < n)%Z.
Proof.
  unfold range. intros [i Hi]%list_elem_of_lookup.
  apply lookup_seqZ in Hi. lia.
Qed.

(** The positions as the grid cells of the spec, given the column count the
    table yields. *)
Lemma positions_as_cells (configuration : Configuration) (n : Z)
    (left_ top_ right_ bottom_ : Z) (cols rows : Z) :
  (1 ≤ n ≤ 15)%Z → (0 < right_ - left_)%Z → (0 < bottom_ - top_)%Z →
  GRID_LAYOUTS !! n = Some (cols, rows) →
  _calculate_card_positions configuration n (left_, top_, right_, bottom_)
  = map (fun idx =>
           cell_badge_position
             (calibrated_grid configuration (left_, top_, right_, bottom_))
             (idx `div` cols) (idx `mod` cols))
        (range n).
Proof.
  intros Hn Hw Hh Hg. unfold _calculate_card_positions.
  replace ((n <=? 0)%Z || (15 <? n)%Z) with false by (symmetry; lia).
  replace ((right_ - left_ <=? 0)%Z || (bottom_ - top_ <=? 0)%Z) with false
    by (symmetry; lia).
  rewrite Hg. reflexivity.
Qed.

Lemma positions_length (configuration : Configuration) (num_cards : Z)
    (left_ top_ right_ bottom_ : Z) :
  (1 ≤ num_cards ≤ 15)%Z → (0 < right_ - left_)%Z → (0 < bottom_ - top_)%Z →
  length (_calculate_card_positions configuration num_cards
            (left_, top_, right_, bottom_)) = Z.to_nat num_cards.
Proof.
  intros Hn Hw Hh. unfold _calculate_card_positions.
  replace ((num_cards <=? 0)%Z || (15 <? num_cards)%Z) with false
    by (symmetry; lia).
  replace ((right_ - left_ <=? 0)%Z || (bottom_ - top_ <=? 0)%Z) with false
    by (symmetry; lia).
  destruct (default _ _) as [cols rows].
  rewrite length_map. apply length_seqZ.
Qed.

Lemma positions_empty (configuration : Configuration) (num_cards : Z)
    (left_ top_ right_ bottom_ : Z) :
  (num_cards ≤ 0 ∨ 15 < num_cards ∨ right_ - left_ ≤ 0 ∨ bottom_ - top_ ≤ 0)%Z →
  _calculate_card_positions configuration num_cards
    (left_, top_, right_, bottom_) = [].
Proof.
  intros Hbad. unfold _calculate_card_positions.
  destruct ((num_cards <=? 0)%Z || (15 <? num_cards)%Z) eqn:E1; [done|].
  destruct ((right_ - left_ <=? 0)%Z || (bottom_ - top_ <=? 0)%Z) eqn:E2;
    [done|]. lia.
Qed.

(** C3: the position calculator returns exactly [num_cards] coordinate
    pairs when the count is in [1,15] and the rectangle has positive width
    and height, and the empty list when the count is 0, negative or above
    15, or the width or the height is not positive.  The calculator is a
    total function: no input makes it raise. *)
Theorem positions_count (configuration : Configuration) (num_cards : Z)
    (left_ top_ right_ bottom_ : Z) :
  ((1 ≤ num_cards ≤ 15)%Z → (0 < right_ - left_)%Z → (0 < bottom_ - top_)%Z →
   length (_calculate_card_positions configuration num_cards
             (left_, top_, right_, bottom_)) = Z.to_nat num_cards)
  ∧ ((num_cards ≤ 0 ∨ 15 < num_cards
      ∨ right_ - left_ ≤ 0 ∨ bottom_ - top_ ≤ 0)%Z →
     _calculate_card_positions configuration num_cards
       (left_, top_, right_, bottom_) = []).
Proof. split; [apply positions_length|apply positions_empty]. Qed.

(** C4: for counts 1 to 8 every card is on a single row (row index 0) and
    its column index is its card index; for counts 9 to 15 card index [i] is
    at row [i div 8], column [i mod 8] of an 8-column, 2-row grid, so that
    for count 9 the 9th card (index 8) opens the second row, at row index
    [8 div 8 = 1] and column 0; and in every case the cell is the calibrated
    grid width divided by 8 wide and the calibrated grid height divided by 2
    high, the grid being the same for every count. *)
Theorem positions_grid (configuration : Configuration) (num_cards : Z)
    (left_ top_ right_ bottom_ : Z) :
  (0 < right_ - left_)%Z → (0 < bottom_ - top_)%Z →
  let rect := (left_, top_, right_, bottom_) in
  let g := calibrated_grid configuration rect in
  ((1 ≤ num_cards ≤ 8)%Z →
   _calculate_card_positions configuration num_cards rect
   = map (fun idx => cell_badge_position g 0 idx) (range num_cards))
  ∧ ((9 ≤ num_cards ≤ 15)%Z →
     _calculate_card_positions configuration num_cards rect
     = map (fun idx => cell_badge_position g (idx `div` 8) (idx `mod` 8))
           (range num_cards))
  ∧ _calculate_card_positions configuration 9 rect !! 8%nat
    = Some (cell_badge_position g 1 0)
  ∧ (∀ row col : Z,
       cell_badge_position g row col
       = (int (grid_x0 g + inject_Z col * (grid_width g / 8)
               + grid_width g / 8 / 2 - 15),
          int (grid_y0 g + inject_Z row * (grid_height g / 2)
               + grid_height g / 2 * 0.08))%Q).
Proof.
  intros Hw Hh rect g. repeat split.
  - intros Hn.
    destruct (grid_layout_small num_cards Hn) as (cols & rows & Hg & Hcols & _).
    unfold rect. rewrite (positions_as_cells _ _ _ _ _ _ cols rows) by (done || lia).
    apply map_ext_in. intros idx Hidx%list_elem_of_In%range_bounds.
    rewrite Z.div_small, Z.mod_small by lia. done.
  - intros Hn. unfold rect.
    rewrite (positions_as_cells _ _ _ _ _ _ 8 2)%Z
      by (done || lia || by apply grid_layout_large).
    done.
  - unfold rect.
    rewrite (positions_as_cells _ _ _ _ _ _ 8 2)%Z
      by (done || lia || by apply grid_layout_large).
    done.
Qed.

Lemma positions_count_witness :
  length (_calculate_card_positions Scenario.enabled 3 (100, 100, 1100, 600)%Z)
  = 3%nat
  ∧ _calculate_card_positions Scenario.enabled 16 (100, 100, 1100, 600)%Z = []
  ∧ _calculate_card_positions Scenario.enabled 3 (100, 100, 100, 600)%Z = [].
Proof.
  split_and!.
  - apply (proj1 (positions_count Scenario.enabled 3 100 100 1100 600)); lia.
  - apply (proj2 (positions_count Scenario.enabled 16 100 100 1100 600)); lia.
  - apply (proj2 (positions_count Scenario.enabled 3 100 100 100 600)); lia.
Defined.

Lemma positions_grid_witness :
  let g := calibrated_grid Scenario.enabled (100, 100, 1100, 600)%Z in
  _calculate_card_positions Scenario.enabled 8 (100, 100, 1100, 600)%Z
  = map (fun idx => cell_badge_position g 0 idx) (range 8)
  ∧ _calculate_card_positions Scenario.enabled 9 (100, 100, 1100, 600)%Z
    = map (fun idx => cell_badge_position g (idx `div` 8) (idx `mod` 8)) (range 9).
Proof.
  destruct (positions_grid Scenario.enabled 8 100 100 1100 600)
    as (Hrow & _); [lia..|].
  destruct (positions_grid Scenario.enabled 9 100 100 1100 600)
    as (_ & Hgrid & _); [lia..|].
  split; [apply Hrow|apply Hgrid]; lia.
Defined.

End LayoutFacts.

Module OverlayFacts.
Import Sort Layout Overlay SortFacts LayoutFacts.

(** *** Lists updated in place *)

Lemma foldl_alter_zip_seq {A B : Type} (f : nat → B → A → A)
    (items : list B) (k : nat) (l : list A) (i : nat) :
  foldl (fun bs item => alter (f item.1 item.2) item.1 bs) l
        (zip (seq k (length items)) items) !! i
  = match (if decide (k ≤ i)%nat then items !! (i - k)%nat else None) with
    | Some x => f i x <$> l !! i
    | None => l !! i
    end.
Proof.
  revert k l. induction items as [|x items IH]; intros k l; simpl.
  - by destruct (decide _).
  - rewrite IH. simpl.
    destruct (decide (S k ≤ i)%nat) as [Hle|Hgt].
    + rewrite decide_True by lia.
      replace (i - k)%nat with (S (i - S k)) by lia. simpl.
      rewrite list_lookup_alter_ne by lia. done.
    + destruct (decide (k ≤ i)%nat) as [Hle'|Hgt'].
      * assert (i = k) as -> by lia. rewrite Nat.sub_diag. simpl.
        by rewrite list_lookup_alter_eq.
      * rewrite list_lookup_alter_ne by lia. done.
Qed.

Lemma foldl_alter_enumerate {A B : Type} (f : nat → B → A → A)
    (items : list B) (l : list A) (i : nat) :
  foldl (fun bs item => alter (f item.1 item.2) item.1 bs) l (enumerate items) !! i
  = match items !! i with
    | Some x => f i x <$> l !! i
    | None => l !! i
    end.
Proof.
  unfold enumerate. rewrite foldl_alter_zip_seq.
  rewrite decide_True by lia. by rewrite Nat.sub_0_r.
Qed.

Lemma foldl_alter_length {A B : Type} (g : B → A → A) (h : B → nat)
    (items : list B) (l : list A) :
  length (foldl (fun bs item => alter (g item) (h item) bs) l items) = length l.
Proof.
  revert l. induction items as [|x items IH]; intros l; simpl; [done|].
  by rewrite IH, length_alter.
Qed.

Lemma foldl_alter_seq {A : Type} (g : A → A) (a k : nat) (l : list A) (i : nat) :
  foldl (fun bs idx => alter g idx bs) l (seq a k) !! i
  = if decide (a ≤ i < a + k)%nat then g <$> l !! i else l !! i.
Proof.
  revert a l. induction k as [|k IH]; intros a l; simpl.
  - rewrite decide_False by lia. done.
  - rewrite IH. destruct (decide (S a ≤ i < S a + k)%nat).
    + rewrite decide_True by lia. by rewrite list_lookup_alter_ne by lia.
    + destruct (decide (a ≤ i < a + S k)%nat).
      * assert (i = a) as -> by lia. by rewrite list_lookup_alter_eq.
      * by rewrite list_lookup_alter_ne by lia.
Qed.

(** *** Hiding *)

Lemma hide_all_hidden (self : InGameOverlay) :
  Forall (fun b => _visible b = false) (_badges (_hide_all self)).
Proof. simpl. apply Forall_map. by apply Forall_true. Qed.

(** C9: a call of [update] made while the enable flag is off leaves the
    cached pack, ratings and pick number as they were: the arguments are
    not stored; and it hides every badge. *)
Theorem update_while_disabled (configuration : Configuration) (env : Env)
    (pack_cards : list Card) (ratings_dict : gmap string Q) (pick_number : Z)
    (self : InGameOverlay) :
  ingame_overlay_enabled (settings configuration) = false →
  let self' := update configuration env pack_cards ratings_dict pick_number self in
  _last_pack_cards self' = _last_pack_cards self
  ∧ _last_ratings self' = _last_ratings self
  ∧ _last_pick_number self' = _last_pick_number self
  ∧ length (_badges self') = length (_badges self)
  ∧ Forall (fun b => _visible b = false) (_badges self').
Proof.
  intros Hoff self'. unfold self', update. rewrite Hoff. simpl.
  split_and!; try done.
  - by rewrite length_map.
  - apply (hide_all_hidden self).
Qed.

(** C8, as the code has it: with the enable flag off a cadence tick changes
    nothing: the badge slots stay as they were (a visible badge stays
    visible) and the cached pack, ratings and pick number are unchanged; so
    a later tick with the flag on again repositions the badges from the
    same cache. *)
Theorem tick_while_disabled (configuration : Configuration) (env : Env)
    (self : InGameOverlay) :
  ingame_overlay_enabled (settings configuration) = false →
  _poll_tick configuration env self = self
  ∧ ∀ (configuration' : Configuration) (env' : Env),
      ingame_overlay_enabled (settings configuration') = true →
      truthy_list (_last_pack_cards self) = true →
      truthy_dict (_last_ratings self) = true →
      _poll_tick configuration' env' (_poll_tick configuration env self)
      = _position_badges configuration' env' self.
Proof.
  intros Hoff.
  assert (_poll_tick configuration env self = self) as Hid.
  { unfold _poll_tick. by rewrite Hoff. }
  split; [done|]. intros configuration' env' Hon Hpack Hratings.
  rewrite Hid. unfold _poll_tick. by rewrite Hon, Hpack, Hratings.
Qed.

(** *** The badge loop *)

Lemma foldl_ext {A B : Type} (f g : A → B → A) (l : list B) (a : A) :
  (∀ a b, f a b = g a b) → foldl f a l = foldl g a l.
Proof.
  intros Hfg. revert a. induction l as [|b l IH]; intros a; simpl; [done|].
  by rewrite Hfg, IH.
Qed.

Lemma lookup_map {A B : Type} (f : A → B) (l : list A) (i : nat) :
  map f l !! i = f <$> l !! i.
Proof. apply (list_lookup_fmap f l i). Qed.

Lemma truthy_list_length {A : Type} (l : list A) :
  truthy_list l = true ↔ (0 < length l)%nat.
Proof. destruct l; simpl; split; (done || lia). Qed.

Lemma truthy_sort_pack (cards : list Card) :
  truthy_list cards = true → truthy_list (sort_pack cards) = true.
Proof.
  rewrite !truthy_list_length. unfold sort_pack. by rewrite sorted_length.
Qed.

(** The state a successful reposition leaves: the rectangle is recorded, and
    the badges are the grown pool after the show loop and the hide loop. *)
Lemma position_badges_success (configuration : Configuration) (env : Env)
    (self : InGameOverlay) (rect : WindowRect) :
  reposition_succeeds env self rect →
  let pack_cards := sort_pack (_last_pack_cards self) in
  let num_cards := length pack_cards in
  let positions :=
    _calculate_card_positions configuration (Z.of_nat num_cards) rect in
  let card_ratings := card_ratings_of (_last_ratings self) pack_cards in
  let best_rating := py_max 0 (map snd card_ratings) in
  let debug_mode :=
    default false (ingame_overlay_debug (features configuration)) in
  let grown :=
    (_badges self ++ replicate (num_cards - length (_badges self)) new_badge)%list in
  let after_show :=
    foldl (fun bs item => alter (show_item best_rating debug_mode item.1 item.2) item.1 bs)
          grown (enumerate (zip positions card_ratings)) in
  length positions = num_cards
  ∧ _position_badges configuration env self
    = set_badges
        (foldl (fun bs idx => alter hide idx bs) after_show
               (seq num_cards (length after_show - num_cards)))
        (set_last_mtga_rect (Some rect) self).
Proof.
  intros (Hpack & Hratings & (hwnd & Hfind & Hmin & Hrect) & Hlen & Hpos).
  intros pack_cards num_cards positions card_ratings best_rating debug_mode
    grown after_show.
  assert (Hnum : (1 ≤ num_cards ≤ 15)%nat).
  { unfold num_cards, pack_cards, sort_pack. rewrite sorted_length.
    apply truthy_list_length in Hpack. lia. }
  assert (Hpositions : length positions = num_cards).
  { unfold positions. destruct rect as [[[l t] r] b]. destruct Hpos as [Hw Hh].
    rewrite positions_length by lia. lia. }
  split; [done|].
  assert (Htruthy : truthy_list pack_cards = true)
    by by apply truthy_sort_pack.
  unfold _position_badges. rewrite Hpack.
  change (sorted mtga_draft_sort_key (_last_pack_cards self)) with pack_cards.
  rewrite Htruthy, Hratings. simpl negb. simpl orb. cbv iota.
  rewrite Hfind, Hmin, Hrect.
  fold num_cards. fold positions. rewrite Hpositions, Nat.eqb_refl.
  simpl negb. cbv iota.
  f_equal. fold card_ratings. fold best_rating. fold debug_mode.
  cbn [_badges set_last_mtga_rect]. fold grown.
  assert (Hbody :
    foldl (fun bs item =>
             let '(idx, (pos, (nm, rating))) := item in
             alter (show pos.1 pos.2 rating (is_best_of best_rating rating)
                         (if debug_mode then Some (idx, nm) else None)) idx bs)
          grown (enumerate (zip positions card_ratings)) = after_show).
  { apply foldl_ext. by intros bs [idx [pos [nm rating]]]. }
  by rewrite Hbody.
Qed.

(** The badge of the [i]-th card of the sorted pack after a successful
    reposition: [show] applied at the [i]-th position with the card's rating
    from the map, 0.0 when its name is absent. *)
Lemma reposition_slot (configuration : Configuration) (env : Env)
    (self : InGameOverlay) (rect : WindowRect) (i : nat) (card : Card) :
  reposition_succeeds env self rect →
  sort_pack (_last_pack_cards self) !! i = Some card →
  let pack_cards := sort_pack (_last_pack_cards self) in
  let rating := default 0%Q (_last_ratings self !! card_name card) in
  let best_rating :=
    py_max 0 (map snd (card_ratings_of (_last_ratings self) pack_cards)) in
  let debug_mode :=
    default false (ingame_overlay_debug (features configuration)) in
  ∃ (pos : Z * Z) (b0 : RatingBadge),
    _calculate_card_positions configuration (Z.of_nat (length pack_cards)) rect !! i
    = Some pos
    ∧ _badges (_position_badges configuration env self) !! i
      = Some (show pos.1 pos.2 rating (is_best_of best_rating rating)
                   (if debug_mode then Some (i, card_name card) else None) b0).
Proof.
  intros Hsucc Hcard pack_cards rating best_rating debug_mode.
  destruct (position_badges_success configuration env self rect Hsucc)
    as [Hlen Heq].
  fold pack_cards in Hlen, Heq. fold best_rating in Heq. fold debug_mode in Heq.
  pose proof (lookup_lt_Some _ _ _ Hcard) as Hi. fold pack_cards in Hi.
  destruct (lookup_lt_is_Some_2
              (_calculate_card_positions configuration
                 (Z.of_nat (length pack_cards)) rect) i) as [pos Hpos]; [lia|].
  set (grown := (_badges self
                 ++ replicate (length pack_cards - length (_badges self)) new_badge)%list)
    in *.
  destruct (lookup_lt_is_Some_2 grown i) as [b0 Hb0].
  { unfold grown. rewrite length_app, length_replicate. lia. }
  exists pos, b0. split; [done|].
  rewrite Heq. cbn [_badges set_badges].
  rewrite foldl_alter_seq, decide_False by lia.
  rewrite foldl_alter_enumerate.
  assert (Hitem :
    zip (_calculate_card_positions configuration (Z.of_nat (length pack_cards)) rect)
        (card_ratings_of (_last_ratings self) pack_cards) !! i
    = Some (pos, (card_name card, rating))).
  { apply lookup_zip_with_Some. exists pos, (card_name card, rating).
    split_and!; [done..|].
    unfold card_ratings_of. rewrite lookup_map. fold pack_cards in Hcard.
    by rewrite Hcard. }
  rewrite Hitem, Hb0. done.
Qed.

(** The badges beyond the pack are hidden by a successful reposition. *)
Lemma reposition_extra_hidden (configuration : Configuration) (env : Env)
    (self : InGameOverlay) (rect : WindowRect) (i : nat) (b : RatingBadge) :
  reposition_succeeds env self rect →
  (length (sort_pack (_last_pack_cards self)) ≤ i)%nat →
  _badges (_position_badges configuration env self) !! i = Some b →
  _visible b = false.
Proof.
  intros Hsucc Hi.
  destruct (position_badges_success configuration env self rect Hsucc)
    as [Hlen Heq].
  rewrite Heq. cbn [_badges set_badges]. rewrite foldl_alter_seq.
  intros Hb. destruct (decide _) as [_|Hout].
  - apply fmap_Some in Hb as (b' & _ & ->). done.
  - apply lookup_lt_Some in Hb. lia.
Qed.

(** *** Ratings *)

Lemma Qlt_bool_iff (a b : Q) : Qlt_bool a b = true ↔ (a < b)%Q.
Proof.
  unfold Qlt_bool. rewrite negb_true_iff, <- not_true_iff_false, Qle_bool_iff.
  split; [apply Qnot_le_lt | apply Qlt_not_le].
Qed.

Lemma py_max_step_ge (best : Q) (l : list Q) :
  let m := foldl (fun best r => if Qlt_bool best r then r else best) best l in
  (best <= m)%Q ∧ Forall (fun x => (x <= m)%Q) l ∧ (m = best ∨ m ∈ l).
Proof.
  revert best. induction l as [|r l IH]; intros best; simpl.
  - split_and!; [apply Qle_refl | constructor | by left].
  - destruct (Qlt_bool best r) eqn:E.
    + apply Qlt_bool_iff in E.
      destruct (IH r) as (Hge & Hall & Hin). split_and!.
      * apply Qle_trans with r; [by apply Qlt_le_weak|done].
      * by constructor.
      * right. destruct Hin as [->|Hin]; [left|right]; done.
    + assert (Hle : (r <= best)%Q).
      { apply Qnot_lt_le. intros H%Qlt_bool_iff. congruence. }
      destruct (IH best) as (Hge & Hall & Hin). split_and!; [done| |].
      * constructor; [|done]. by apply Qle_trans with best.
      * destruct Hin as [->|Hin]; [by left|right; by right].
Qed.

(** [py_max] of a non-empty list is one of its items and bounds them all. *)
Lemma py_max_spec (d : Q) (l : list Q) :
  l ≠ [] →
  py_max d l ∈ l ∧ Forall (fun x => (x <= py_max d l)%Q) l.
Proof.
  destruct l as [|x l]; [done|]. intros _. simpl.
  destruct (py_max_step_ge x l) as (Hge & Hall & Hin). split.
  - destruct Hin as [->|Hin]; [left|by right].
  - by constructor.
Qed.

Lemma is_best_of_iff (best_rating rating : Q) :
  is_best_of best_rating rating = true ↔ (rating == best_rating ∧ 0 < rating)%Q.
Proof.
  unfold is_best_of. by rewrite andb_true_iff, Qeq_bool_iff, Qlt_bool_iff.
Qed.

(** The highlight colours are those of [is_best] alone. *)
Lemma tier_colors_best (rating : Q) (is_best : bool) :
  _tier_colors rating is_best = best_in_pack_colors ↔ is_best = true.
Proof.
  unfold _tier_colors, best_in_pack_colors. destruct is_best; [done|].
  repeat (destruct (Qle_bool _ rating); [done|]). done.
Qed.

Lemma marked_best_show (x y : Z) (rating : Q) (is_best : bool)
    (debug_info : option (nat * string)) (b0 : RatingBadge) :
  marked_best (show x y rating is_best debug_info b0) = is_best.
Proof.
  unfold show, marked_best.
  pose proof (tier_colors_best rating is_best) as Hc.
  destruct (_tier_colors rating is_best) as [bg fg]. simpl.
  destruct is_best.
  - apply bool_decide_eq_true. by apply Hc.
  - apply bool_decide_eq_false. intros H. by apply Hc in H.
Qed.

Lemma visible_show (x y : Z) (rating : Q) (is_best : bool)
    (debug_info : option (nat * string)) (b0 : RatingBadge) :
  _visible (show x y rating is_best debug_info b0) = true.
Proof. unfold show. by destruct (_tier_colors rating is_best). Qed.


(** C1, as the code has it: in a successful reposition the slot of a card of
    the sorted pack is shown, and it carries the best-in-pack highlight
    exactly when the card's rating equals the maximum rating of the sorted
    pack and is greater than 0.  So every card tied at a positive maximum is
    marked, no slot is marked when the maximum is not positive, a card whose
    rating is exactly 0 is never marked, and the slots beyond the pack are
    hidden. *)
Theorem best_in_pack_marks (configuration : Configuration) (env : Env)
    (self : InGameOverlay) (rect : WindowRect) :
  reposition_succeeds env self rect →
  let pack_cards := sort_pack (_last_pack_cards self) in
  let rating_of (card : Card) :=
    default 0%Q (_last_ratings self !! card_name card) in
  let self' := _position_badges configuration env self in
  ∃ best_rating : Q,
    (∃ card, card ∈ pack_cards ∧ rating_of card = best_rating)
    ∧ (∀ card, card ∈ pack_cards → (rating_of card <= best_rating)%Q)
    ∧ (∀ i card, pack_cards !! i = Some card →
         ∃ b, _badges self' !! i = Some b
              ∧ _visible b = true
              ∧ (marked_best b = true
                 ↔ (rating_of card == best_rating ∧ 0 < rating_of card)%Q)
              ∧ ((rating_of card == 0)%Q → marked_best b = false))
    ∧ (∀ i b, (length pack_cards ≤ i)%nat → _badges self' !! i = Some b →
         marked_best b = false).
Proof.
  intros Hsucc pack_cards rating_of self'.
  set (ratings := map snd (card_ratings_of (_last_ratings self) pack_cards)).
  assert (Hratings : ratings = map rating_of pack_cards).
  { unfold ratings, card_ratings_of. rewrite map_map. done. }
  assert (Hne : ratings ≠ []).
  { destruct Hsucc as (Hpack & _). apply truthy_sort_pack in Hpack.
    fold pack_cards in Hpack. rewrite Hratings.
    destruct pack_cards; [done|]. done. }
  destruct (py_max_spec 0 ratings Hne) as [Hin Hall].
  exists (py_max 0 ratings). split_and!.
  - rewrite Hratings in Hin at 2.
    apply list_elem_of_In, in_map_iff in Hin as (card & Heq & Hcard).
    exists card. split; [by apply list_elem_of_In|done].
  - intros card Hcard. rewrite Forall_forall in Hall. apply Hall.
    rewrite Hratings. apply list_elem_of_In, in_map, list_elem_of_In, Hcard.
  - intros i card Hcard.
    destruct (reposition_slot configuration env self rect i card Hsucc Hcard)
      as (pos & b0 & _ & Hb).
    eexists. split; [exact Hb|].
    rewrite visible_show, !marked_best_show. split_and!.
    + done.
    + apply is_best_of_iff.
    + intros Hzero. apply not_true_iff_false. intros [_ Hpos]%is_best_of_iff.
      apply (Qlt_not_eq _ _ Hpos). by apply Qeq_sym.
  - intros i b Hi Hb.
    pose proof (reposition_extra_hidden _ _ _ _ _ _ Hsucc Hi Hb) as Hhid.
    unfold marked_best. rewrite Hhid. by destruct (shown b).
Qed.


(** *** The scenario *)

Lemma scenario_reposition_succeeds (ratings_dict : gmap string Q) :
  truthy_dict ratings_dict = true →
  reposition_succeeds Scenario.env
    (set_last Scenario.pack ratings_dict 1 init) Scenario.rect.
Proof.
  intros Hr. split_and!; [done|done| |simpl; lia|simpl; lia].
  eexists. split_and!; reflexivity.
Qed.

(** C1 fails as stated: with two cards tied at the maximum, a successful
    reposition marks both of their slots, the second in sort order too. *)
Lemma tied_cards_are_both_marked :
  reposition_succeeds Scenario.env
    (set_last Scenario.pack Scenario.tied_ratings 1 init) Scenario.rect
  ∧ map card_name (sort_pack Scenario.pack) = ["Opt"; "Shock"; "0044"]
  ∧ map marked_best
        (_badges (update Scenario.enabled Scenario.env Scenario.pack
                    Scenario.tied_ratings 1 init))
    = [true; true; false]
  ∧ length (List.filter marked_best
              (_badges (update Scenario.enabled Scenario.env Scenario.pack
                          Scenario.tied_ratings 1 init))) ≠ 1%nat.
Proof.
  split; [by apply scenario_reposition_succeeds|].
  split_and!; vm_compute; (reflexivity || discriminate).
Qed.

(** C8 fails as stated: after the flag is turned off, the cadence tick
    leaves the three visible badges visible. *)
Lemma tick_after_disable_leaves_badges_visible :
  map _visible (_badges Scenario.shown_overlay) = [true; true; true]
  ∧ map _visible
        (_badges (_poll_tick Scenario.disabled Scenario.env Scenario.shown_overlay))
    = [true; true; true]
  ∧ ¬ Forall (fun b => _visible b = false)
        (_badges (_poll_tick Scenario.disabled Scenario.env Scenario.shown_overlay)).
Proof.
  split_and!; [vm_compute; reflexivity..|].
  intros Hall. vm_compute in Hall.
  apply Forall_cons_1 in Hall as [Hvis _]. discriminate.
Qed.

Lemma update_while_disabled_witness :
  let self' :=
    update Scenario.disabled Scenario.env [Scenario.shock] ∅ 7
      Scenario.shown_overlay in
  _last_pack_cards self' = _last_pack_cards Scenario.shown_overlay
  ∧ _last_ratings self' = _last_ratings Scenario.shown_overlay
  ∧ _last_pick_number self' = _last_pick_number Scenario.shown_overlay
  ∧ length (_badges self') = length (_badges Scenario.shown_overlay)
  ∧ Forall (fun b => _visible b = false) (_badges self').
Proof.
  apply (update_while_disabled Scenario.disabled Scenario.env [Scenario.shock]
           ∅ 7 Scenario.shown_overlay).
  reflexivity.
Defined.

Lemma tick_while_disabled_witness :
  _poll_tick Scenario.disabled Scenario.env Scenario.shown_overlay
  = Scenario.shown_overlay
  ∧ _poll_tick Scenario.enabled Scenario.env
      (_poll_tick Scenario.disabled Scenario.env Scenario.shown_overlay)
    = _position_badges Scenario.enabled Scenario.env Scenario.shown_overlay.
Proof.
  destruct (tick_while_disabled Scenario.disabled Scenario.env
              Scenario.shown_overlay eq_refl) as [Hid Hre].
  split; [exact Hid|].
  apply (Hre Scenario.enabled Scenario.env); vm_compute; reflexivity.
Defined.

Lemma best_in_pack_marks_witness :
  let self := set_last Scenario.pack Scenario.tied_ratings 1 init in
  let pack_cards := sort_pack (_last_pack_cards self) in
  let rating_of (card : Card) :=
    default 0%Q (_last_ratings self !! card_name card) in
  let self' := _position_badges Scenario.enabled Scenario.env self in
  ∃ best_rating : Q,
    (∃ card, card ∈ pack_cards ∧ rating_of card = best_rating)
    ∧ (∀ card, card ∈ pack_cards → (rating_of card <= best_rating)%Q)
    ∧ (∀ i card, pack_cards !! i = Some card →
         ∃ b, _badges self' !! i = Some b
              ∧ _visible b = true
              ∧ (marked_best b = true
                 ↔ (rating_of card == best_rating ∧ 0 < rating_of card)%Q)
              ∧ ((rating_of card == 0)%Q → marked_best b = false))
    ∧ (∀ i b, (length pack_cards ≤ i)%nat → _badges self' !! i = Some b →
         marked_best b = false).
Proof.
  apply (best_in_pack_marks Scenario.enabled Scenario.env
           (set_last Scenario.pack Scenario.tied_ratings 1 init) Scenario.rect).
  apply scenario_reposition_succeeds. vm_compute. reflexivity.
Defined.


End OverlayFacts.

Module RatingFacts.
Import Overlay Rating.

Section EngineFacts.
Context {Session : Type} (world : World Session).

(** *** The manager *)

Lemma get_model_loop_cases (cache_key set_code : string)
    (modes_to_try : list string) (mgr : MLModelManager Session) :
  get_model_loop world cache_key set_code modes_to_try mgr = (inr None, mgr)
  ∨ ∃ session,
      get_model_loop world cache_key set_code modes_to_try mgr
      = (inr (Some session),
         set_sessions (<[cache_key := session]> (_sessions mgr)) mgr).
Proof.
  induction modes_to_try as [|try_mode rest IH]; simpl; [by left|].
  unfold mbind, M_bind, bind, gets. simpl.
  destruct (os_path_exists world _); [|exact IH].
  unfold try_except, lift, modify, ret. simpl.
  destruct (InferenceSession world _) as [e|session]; [by left|].
  right. by exists session.
Qed.

(** [get_model] does not raise; it returns [None] and leaves the manager
    as it is, or returns a session that is then in the cache. *)
Lemma get_model_cases (set_code mode : string) (mgr : MLModelManager Session) :
  get_model world set_code mode mgr = (inr None, mgr)
  ∨ ∃ session mgr',
      get_model world set_code mode mgr = (inr (Some session), mgr')
      ∧ ONNX_AVAILABLE world = true
      ∧ _sessions mgr' !! (set_code ++ "_" ++ mode) = Some session
      ∧ model_directory mgr' = model_directory mgr
      ∧ _cardnames mgr' = _cardnames mgr.
Proof.
  unfold get_model. destruct (ONNX_AVAILABLE world) eqn:Honnx; simpl; [|by left].
  unfold mbind, M_bind, bind, gets. simpl.
  destruct (_sessions mgr !! _) as [session|] eqn:Hcache.
  - right. exists session, mgr. by split_and!.
  - destruct (get_model_loop_cases (set_code ++ "_" ++ mode) set_code
                (if bool_decide (mode = "Premier") then [mode; "PickTwo"]
                 else [mode]) mgr) as [Hnone|[session Hsome]].
    + by left.
    + right. exists session, (set_sessions
               (<[set_code ++ "_" ++ mode := session]> (_sessions mgr)) mgr).
      split_and!; try done. simpl. by rewrite lookup_insert_eq.
Qed.

(** A session found once is served from the cache afterwards. *)
Lemma get_model_cached (set_code mode : string) (mgr : MLModelManager Session)
    (session : Session) :
  ONNX_AVAILABLE world = true →
  _sessions mgr !! (set_code ++ "_" ++ mode) = Some session →
  get_model world set_code mode mgr = (inr (Some session), mgr).
Proof.
  intros Honnx Hcache. unfold get_model. rewrite Honnx. simpl.
  unfold mbind, M_bind, bind, gets. simpl. by rewrite Hcache.
Qed.

(** [get_cardnames] does not raise; it returns [None] and leaves the
    manager as it is, or returns a vocabulary. *)
Lemma get_cardnames_cases (set_code : string) (mgr : MLModelManager Session) :
  get_cardnames world set_code mgr = (inr None, mgr)
  ∨ ∃ cardnames mgr',
      get_cardnames world set_code mgr = (inr (Some cardnames), mgr').
Proof.
  unfold get_cardnames, mbind, M_bind, bind, gets. simpl.
  destruct (_cardnames mgr !! set_code) as [cardnames|]; [right; by eexists _, _|].
  destruct (os_path_exists world _); simpl; [|by left].
  unfold try_except, lift, modify, ret. simpl.
  destruct (read_csv_names world _) as [e|cardnames]; [by left|].
  right. by eexists _, _.
Qed.

(** *** The calculator *)

(** The result dict of a vocabulary whose ratings are all there. *)
Lemma build_ratings_spec (names : list string) (ratings : list Q) (k : nat)
    (acc : gmap string Q) :
  (k + length names ≤ length ratings)%nat →
  ∃ res,
    build_ratings (zip (seq k (length names)) names) ratings acc = inr res
    ∧ dom res = dom acc ∪ list_to_set names
    ∧ ∀ nm v, res !! nm = Some v →
        acc !! nm = Some v
        ∨ ∃ i r, names !! i = Some nm ∧ ratings !! (k + i)%nat = Some r
                 ∧ v = round1 r.
Proof.
  revert k acc. induction names as [|nm0 names IH]; intros k acc Hlen; simpl.
  - exists acc. split_and!; [done|set_solver|by left].
  - simpl in Hlen.
    destruct (lookup_lt_is_Some_2 ratings k) as [r Hr]; [lia|]. rewrite Hr.
    destruct (IH (S k) (<[nm0 := round1 r]> acc)) as (res & Hres & Hdom & Hval);
      [lia|].
    exists res. split_and!; [done| |].
    + rewrite Hdom, dom_insert_L. set_solver.
    + intros nm v Hnm. destruct (Hval nm v Hnm) as [Hacc|(i & r' & Hi & Hr' & ->)].
      * apply lookup_insert_Some in Hacc as [[<- <-]|[_ Hacc]]; [|by left].
        right. exists 0%nat, r. by rewrite Nat.add_0_r.
      * right. exists (S i), r'. split_and!; [done| |done].
        by replace (k + S i)%nat with (S k + i)%nat by lia.
Qed.

(** A missing rating makes the comprehension raise. *)
Lemma build_ratings_total (items : list (nat * string)) (ratings : list Q)
    (acc : gmap string Q) :
  (∃ e, build_ratings items ratings acc = inl e)
  ∨ (∃ res, build_ratings items ratings acc = inr res).
Proof. destruct (build_ratings items ratings acc); eauto. Qed.

Lemma normalize_length (raw_scores : list Q) :
  length (normalize world raw_scores) = length raw_scores.
Proof. unfold normalize. destruct (Qlt_bool _ _); by rewrite length_map. Qed.



(** [compute_ratings], step by step. *)
Lemma compute_ratings_unfold (pool_names : list string) (set_code mode : string)
    (self : MLRatingCalculator Session) :
  compute_ratings world pool_names set_code mode self
  = if negb (ONNX_AVAILABLE world) then (inr ∅, self)
    else
      match get_model world set_code mode (model_manager self) with
      | (inl e, mgr) => (inl e, set_model_manager mgr self)
      | (inr None, mgr) => (inr ∅, set_model_manager mgr self)
      | (inr (Some session), mgr) =>
          match get_cardnames world set_code mgr with
          | (inl e, mgr') =>
              (inl e, set_model_manager mgr' (set_model_manager mgr self))
          | (inr None, mgr') =>
              (inr ∅, set_model_manager mgr' (set_model_manager mgr self))
          | (inr (Some cardnames), mgr') =>
              let self' := set_model_manager mgr' (set_model_manager mgr self) in
              match session_run world session
                      (collection_vector_of cardnames pool_names)
                      (replicate (length cardnames) 1%Q) with
              | inl e => (inr ∅, self')
              | inr raw_scores =>
                  match build_ratings (enumerate cardnames)
                          (normalize world raw_scores) ∅ with
                  | inl e => (inr ∅, self')
                  | inr result =>
                      (inr result, set_current result set_code mode self')
                  end
              end
          end
      end.
Proof.
  unfold compute_ratings. destruct (negb _); [done|].
  unfold mbind, M_bind, bind, on_manager.
  destruct (get_model _ _ _ _) as [[e|[session|]] mgr]; try done.
  simpl model_manager.
  destruct (get_cardnames _ _ _) as [[e|[cardnames|]] mgr']; try done.
  unfold try_except, lift, modify, ret, bind.
  destruct (session_run _ _ _ _) as [e|raw_scores]; [done|].
  destruct (build_ratings _ _ _) as [e|result]; done.
Qed.

(** [compute_ratings] returns a mapping, whatever the loaders and the
    inference run do. *)
Lemma compute_ratings_returns (pool_names : list string) (set_code mode : string)
    (self : MLRatingCalculator Session) :
  ∃ result self',
    compute_ratings world pool_names set_code mode self = (inr result, self').
Proof.
  rewrite compute_ratings_unfold. destruct (negb _); [by eexists _, _|].
  destruct (get_model_cases set_code mode (model_manager self))
    as [->|(session & mgr & -> & _)]; [by eexists _, _|].
  destruct (get_cardnames_cases set_code mgr)
    as [->|(cardnames & mgr' & ->)]; [by eexists _, _|].
  cbv zeta. destruct (session_run _ _ _ _); [by eexists _, _|].
  destruct (build_ratings _ _ _); by eexists _, _.
Qed.

(** For a context that does not resolve the result is empty, the cached
    ratings are kept, and the context still does not resolve afterwards. *)
Lemma compute_ratings_unresolvable (pool_names : list string)
    (set_code mode : string) (self : MLRatingCalculator Session) :
  unresolvable world set_code mode (model_manager self) →
  ∃ self',
    compute_ratings world pool_names set_code mode self = (inr ∅, self')
    ∧ _current_ratings self' = _current_ratings self
    ∧ unresolvable world set_code mode (model_manager self').
Proof.
  intros Hun. rewrite compute_ratings_unfold.
  destruct (negb (ONNX_AVAILABLE world)) eqn:Honnx; [by eexists|].
  destruct Hun as [Hnone|(session & mgr & Hmodel & Hnames)].
  - destruct (get_model_cases set_code mode (model_manager self))
      as [Hm|(session & mgr & Hm & _)]; rewrite Hm in Hnone |- *; [|done].
    eexists. split_and!; [done..|]. left. simpl. by rewrite Hm.
  - rewrite Hmodel.
    destruct (get_model_cases set_code mode (model_manager self))
      as [Hm|(session' & mgr0 & Hm & Hav & Hcache & _)];
      rewrite Hm in Hmodel; [done|]. injection Hmodel as -> ->.
    destruct (get_cardnames_cases set_code mgr)
      as [Hc|(cardnames & mgr' & Hc)]; rewrite Hc in Hnames |- *; [|done].
    eexists. split_and!; [done..|]. right. exists session, mgr. simpl.
    split; [by apply get_model_cached|by rewrite Hc].
Qed.

(** C6: for a context for which no artifact or no vocabulary resolves,
    [compute_ratings] returns the empty mapping without raising, and does
    so again when called again with the same context; and no call of
    [compute_ratings] raises: a failing artifact load, vocabulary load or
    inference run ends in a returned mapping. *)
Theorem compute_ratings_degrades (pool_names : list string)
    (set_code mode : string) (self : MLRatingCalculator Session) :
  (∃ result self',
     compute_ratings world pool_names set_code mode self = (inr result, self'))
  ∧ (unresolvable world set_code mode (model_manager self) →
     ∃ self',
       compute_ratings world pool_names set_code mode self = (inr ∅, self')
       ∧ ∀ pool_names' : list string,
           ∃ self'',
             compute_ratings world pool_names' set_code mode self'
             = (inr ∅, self'')).
Proof.
  split; [apply compute_ratings_returns|]. intros Hun.
  destruct (compute_ratings_unresolvable pool_names set_code mode self Hun)
    as (self' & Hfirst & _ & Hun').
  exists self'. split; [done|]. intros pool_names'.
  destruct (compute_ratings_unresolvable pool_names' set_code mode self' Hun')
    as (self'' & Hsecond & _).
  by exists self''.
Qed.


End EngineFacts.

(** *** The example world *)

Lemma compute_ratings_degrades_witness :
  (∃ result self',
     compute_ratings Example.world ["Opt"] "XYZ" "Premier" Example.calculator
     = (inr result, self'))
  ∧ ∃ self',
      compute_ratings Example.world ["Opt"] "XYZ" "Premier" Example.calculator
      = (inr ∅, self')
      ∧ ∀ pool_names' : list string,
          ∃ self'',
            compute_ratings Example.world pool_names' "XYZ" "Premier" self'
            = (inr ∅, self'').
Proof.
  destruct (compute_ratings_degrades Example.world ["Opt"] "XYZ" "Premier"
              Example.calculator) as [Hret Hun].
  split; [exact Hret|]. apply Hun. left. vm_compute. reflexivity.
Defined.



End RatingFacts.

(** * Further properties *)

Module SortMore.
Import Sort KeyParts SortFacts.

(** *** Colour flags *)

Lemma flag_of_cases (c : string) :
  flag_of c
  = if bool_decide (c = "W") then 1%nat
    else if bool_decide (c = "U") then 2%nat
    else if bool_decide (c = "B") then 4%nat
    else if bool_decide (c = "R") then 8%nat
    else if bool_decide (c = "G") then 16%nat
    else 0%nat.
Proof.
  unfold flag_of, _COLOR_FLAG.
  repeat (rewrite lookup_insert; case_decide; subst;
          [by repeat case_bool_decide|rewrite bool_decide_eq_false_2 by done]).
  rewrite lookup_singleton. case_decide; subst; by repeat case_bool_decide.
Qed.

Lemma bit_if_cons (c x : string) (cols : list string) (v : nat) :
  bit_if (c :: cols) x v
  = if bool_decide (x = c) then v else bit_if cols x v.
Proof.
  unfold bit_if. repeat case_bool_decide; try done; set_solver.
Qed.

Lemma foldl_lor_mask (cols : list string) (init : nat) :
  foldl (fun flag c => Nat.lor flag (default 0%nat (_COLOR_FLAG !! c))) init cols
  = Nat.lor init (color_mask cols).
Proof.
  revert init. induction cols as [|c cols IH]; intros init; simpl.
  - unfold color_mask, bit_if. simpl. by rewrite Nat.lor_0_r.
  - rewrite IH, <- Nat.lor_assoc. f_equal.
    change (default 0%nat (_COLOR_FLAG !! c)) with (flag_of c).
    rewrite flag_of_cases. unfold color_mask. rewrite !bit_if_cons.
    unfold bit_if.
    repeat case_bool_decide; subst; try done; reflexivity.
Qed.

(** X1: the colour flag of a card is the sum of the flag values (W=1, U=2,
    B=4, R=8, G=16) of the colour symbols that occur among the colours
    read, each counted once: it does not depend on the order or the
    repetition of the symbols, a symbol that is not a colour adds nothing,
    the flag is below 32, and masking it with [0x1F] leaves it as it is. *)
Theorem card_color_flags_mask (card : Card) :
  _card_color_flags card = color_mask (card_colors card)
  ∧ (_card_color_flags card < 32)%nat
  ∧ Nat.land (_card_color_flags card) 31 = _card_color_flags card.
Proof.
  assert (Hmask : _card_color_flags card = color_mask (card_colors card)).
  { unfold _card_color_flags. fold (card_colors card).
    by rewrite foldl_lor_mask, Nat.lor_0_l. }
  assert (Hlt : (color_mask (card_colors card) < 32)%nat).
  { unfold color_mask, bit_if. repeat case_bool_decide; lia. }
  split_and!; [done|by rewrite Hmask|].
  change 31%nat with (Nat.ones 5). rewrite Nat.land_ones, Hmask.
  by apply Nat.mod_small.
Qed.

(** *** The key of an identified card *)

Lemma color_flags_lt (card : Card) : (_card_color_flags card < 32)%nat.
Proof.
  unfold _card_color_flags. fold (card_colors card).
  rewrite foldl_lor_mask, Nat.lor_0_l.
  unfold color_mask, bit_if. repeat case_bool_decide; lia.
Qed.

Lemma color_flags_land (card : Card) :
  Nat.land (_card_color_flags card) 31 = _card_color_flags card.
Proof.
  change 31%nat with (Nat.ones 5). rewrite Nat.land_ones.
  apply Nat.mod_small, color_flags_lt.
Qed.

Lemma color_table_NoDup : NoDup _COLOR_SORT_TABLE.
Proof. apply (bool_decide_unpack _). vm_compute. exact I. Qed.

Lemma color_rank_lookup (card : Card) :
  _COLOR_SORT_TABLE !! _card_color_flags card = Some (color_rank card).
Proof.
  unfold color_rank. rewrite color_flags_land.
  destruct (lookup_lt_is_Some_2 _COLOR_SORT_TABLE (_card_color_flags card))
    as [v Hv]; [apply color_flags_lt|]. by rewrite Hv.
Qed.

Lemma color_rank_inj (a b : Card) :
  color_rank a = color_rank b → _card_color_flags a = _card_color_flags b.
Proof.
  intros Heq. pose proof (color_rank_lookup a) as Ha.
  pose proof (color_rank_lookup b) as Hb. rewrite <- Heq in Hb.
  exact (NoDup_lookup _ _ _ _ color_table_NoDup Ha Hb).
Qed.

Lemma identified_key (card : Card) :
  isdigit (card_name card) = false →
  mtga_draft_sort_key card
  = (rarity_rank card, land_flag card, color_rank card, card_name card).
Proof. unfold mtga_draft_sort_key. by intros ->. Qed.

(** X2: two cards whose names are not all digits have the same sort key
    exactly when they have the same rarity rank, the same land flag, the
    same colour flag and the same name: the 32 colour ranks of the table are
    pairwise different, so two colour combinations never tie. *)
Theorem identified_cards_tie_iff (a b : Card) :
  isdigit (card_name a) = false → isdigit (card_name b) = false →
  mtga_draft_sort_key a = mtga_draft_sort_key b
  ↔ rarity_rank a = rarity_rank b
    ∧ land_flag a = land_flag b
    ∧ _card_color_flags a = _card_color_flags b
    ∧ card_name a = card_name b.
Proof.
  intros Ha Hb. rewrite (identified_key a Ha), (identified_key b Hb). split.
  - intros [= Hr Hl Hc Hn]. split_and!; try done. by apply color_rank_inj.
  - intros (Hr & Hl & Hc & Hn). rewrite Hr, Hl, Hn. do 2 f_equal.
    unfold color_rank. by rewrite Hc.
Qed.

Lemma identified_cards_tie_iff_witness :
  let twin := Scenario.card "Shock" ["Sorcery"] ["R"; "R"] in
  mtga_draft_sort_key Scenario.shock = mtga_draft_sort_key twin
  ↔ rarity_rank Scenario.shock = rarity_rank twin
    ∧ land_flag Scenario.shock = land_flag twin
    ∧ _card_color_flags Scenario.shock = _card_color_flags twin
    ∧ card_name Scenario.shock = card_name twin.
Proof.
  apply (identified_cards_tie_iff Scenario.shock
           (Scenario.card "Shock" ["Sorcery"] ["R"; "R"])); reflexivity.
Defined.

(** *** The order of the output *)

Lemma key_ltb_irrefl (a : SortKey) : key_ltb a a = false.
Proof. unfold key_ltb. by rewrite key_compare_refl. Qed.

Lemma smaller_key_earlier (cards : list Card) (i j : nat) (a b : Card) :
  sort_pack cards !! i = Some a → sort_pack cards !! j = Some b →
  key_ltb (mtga_draft_sort_key a) (mtga_draft_sort_key b) = true →
  (i < j)%nat.
Proof.
  intros Hi Hj Hlt.
  destruct (Nat.lt_trichotomy i j) as [Hij|[->|Hji]]; [done| |].
  - rewrite Hi in Hj. injection Hj as ->.
    by rewrite key_ltb_irrefl in Hlt.
  - pose proof (sorted_lookup_le mtga_draft_sort_key cards j i b a Hj Hi Hji)
      as Hle.
    unfold le_by, key_le in Hle. congruence.
Qed.

(** X3: the pack sort returns the same cards, each as often as in the
    input; along the output the keys never decrease; a card with a strictly
    smaller key stands before every card with a larger one; and cards with
    the same key keep the order they had in the input. *)
Theorem sort_pack_ordered (cards : list Card) :
  sort_pack cards ≡ₚ cards
  ∧ (∀ i j a b,
       sort_pack cards !! i = Some a → sort_pack cards !! j = Some b →
       (i < j)%nat →
       key_ltb (mtga_draft_sort_key b) (mtga_draft_sort_key a) = false)
  ∧ (∀ i j a b,
       sort_pack cards !! i = Some a → sort_pack cards !! j = Some b →
       key_ltb (mtga_draft_sort_key a) (mtga_draft_sort_key b) = true →
       (i < j)%nat)
  ∧ (∀ k : SortKey,
       List.filter (fun c => bool_decide (mtga_draft_sort_key c = k))
         (sort_pack cards)
       = List.filter (fun c => bool_decide (mtga_draft_sort_key c = k)) cards).
Proof.
  split_and!.
  - apply sorted_perm.
  - intros i j a b Hi Hj Hij.
    exact (sorted_lookup_le mtga_draft_sort_key cards i j a b Hi Hj Hij).
  - apply smaller_key_earlier.
  - intros k. apply sorted_stable.
Qed.

Lemma sort_pack_ordered_witness :
  sort_pack Scenario.pack ≡ₚ Scenario.pack
  ∧ key_ltb (mtga_draft_sort_key Scenario.shock)
            (mtga_draft_sort_key Scenario.opt) = false
  ∧ (0 < 1)%nat.
Proof.
  destruct (sort_pack_ordered Scenario.pack) as (Hperm & Hle & Hlt & _).
  split_and!; [exact Hperm| |].
  - apply (Hle 0%nat 1%nat Scenario.opt Scenario.shock); (reflexivity || lia).
  - apply (Hlt 0%nat 1%nat Scenario.opt Scenario.shock); reflexivity.
Defined.

(** X4: among the cards whose names are not all digits, rarity decides
    first and the land flag second: in the output of the pack sort a card
    of a smaller rarity rank (mythic 0, rare 1, uncommon 2, common or
    anything else 3) stands before every card of a larger one, and among
    cards of the same rarity rank every card without the type Land stands
    before every card with it. *)
Theorem rarity_then_land (cards : list Card) (i j : nat) (a b : Card) :
  sort_pack cards !! i = Some a → sort_pack cards !! j = Some b →
  isdigit (card_name a) = false → isdigit (card_name b) = false →
  (rarity_rank a < rarity_rank b)%nat
  ∨ (rarity_rank a = rarity_rank b ∧ land_flag a = 0%nat ∧ land_flag b = 1%nat) →
  (i < j)%nat.
Proof.
  intros Hi Hj Ha Hb Hcase. apply (smaller_key_earlier cards i j a b Hi Hj).
  rewrite (identified_key a Ha), (identified_key b Hb).
  apply key_ltb_lt. cbn [key_compare].
  destruct Hcase as [Hr|(Hr & Hla & Hlb)].
  - apply Nat.compare_lt_iff in Hr. by rewrite Hr.
  - rewrite Hr, Nat.compare_refl, Hla, Hlb. done.
Qed.

Lemma rarity_then_land_witness : (0 < 1)%nat.
Proof.
  apply (rarity_then_land
           [Scenario.card "Island" ["Land"] []; Scenario.shock] 0 1
           Scenario.shock (Scenario.card "Island" ["Land"] []));
    try reflexivity.
  right. split_and!; reflexivity.
Defined.

End SortMore.

Module LayoutMore.
Import Layout LayoutFacts.

(** Every count from 1 to 15 lays its cards out on the 8-column grid. *)
Lemma positions_on_eight_columns (configuration : Configuration) (n : Z)
    (left_ top_ right_ bottom_ : Z) :
  (1 ≤ n ≤ 15)%Z → (0 < right_ - left_)%Z → (0 < bottom_ - top_)%Z →
  _calculate_card_positions configuration n (left_, top_, right_, bottom_)
  = map (fun idx =>
           cell_badge_position
             (calibrated_grid configuration (left_, top_, right_, bottom_))
             (idx `div` 8) (idx `mod` 8))
        (range n).
Proof.
  intros Hn Hw Hh. destruct (decide (n ≤ 8)%Z) as [Hsmall|Hlarge].
  - destruct (grid_layout_small n) as (cols & rows & Hg & Hcols & _); [lia|].
    rewrite (positions_as_cells _ _ _ _ _ _ cols rows) by (done || lia).
    apply map_ext_in. intros idx Hidx%list_elem_of_In%range_bounds.
    rewrite !Z.div_small, !Z.mod_small by lia. done.
  - rewrite (positions_as_cells _ _ _ _ _ _ 8 2)%Z
      by (done || lia || (apply grid_layout_large; lia)).
    done.
Qed.

Lemma range_take (n m : Z) :
  (0 ≤ n ≤ m)%Z → take (Z.to_nat n) (range m) = range n.
Proof.
  intros Hnm. unfold range. apply list_eq. intros i.
  destruct (decide (Z.of_nat i < n)%Z) as [Hlt|Hge].
  - rewrite lookup_take_lt by lia. rewrite !lookup_seqZ_lt by lia. done.
  - rewrite lookup_take_ge by lia. by rewrite lookup_seqZ_ge by lia.
Qed.

(** X5: the position of a card's badge depends on the card's index and not
    on the size of the pack: for two counts between 1 and 15, the positions
    of the smaller pack are the first positions of the larger pack. *)
Theorem positions_prefix (configuration : Configuration) (n m : Z)
    (left_ top_ right_ bottom_ : Z) :
  (1 ≤ n ≤ m)%Z → (m ≤ 15)%Z →
  (0 < right_ - left_)%Z → (0 < bottom_ - top_)%Z →
  _calculate_card_positions configuration n (left_, top_, right_, bottom_)
  = take (Z.to_nat n)
      (_calculate_card_positions configuration m (left_, top_, right_, bottom_)).
Proof.
  intros Hn Hm Hw Hh.
  rewrite !positions_on_eight_columns by lia.
  change (map ?f ?l) with (f <$> l). rewrite <- fmap_take.
  by rewrite range_take by lia.
Qed.

Lemma positions_prefix_witness :
  _calculate_card_positions Scenario.enabled 3 (100, 100, 1100, 600)%Z
  = take 3 (_calculate_card_positions Scenario.enabled 14 (100, 100, 1100, 600)%Z).
Proof.
  apply (positions_prefix Scenario.enabled 3 14 100 100 1100 600); lia.
Defined.

(** *** Truncation *)

Lemma int_nonneg (x : Q) : (0 <= x)%Q → int x = Qfloor x.
Proof.
  destruct x as [n d]. unfold Qle, int, Qfloor. simpl. intros Hn.
  apply Z.quot_div_nonneg; lia.
Qed.

Lemma int_nonpos (x : Q) : (x <= 0)%Q → int x = (- Qfloor (- x))%Z.
Proof.
  destruct x as [n d]. unfold Qle, int, Qfloor, Qopp. simpl. intros Hn.
  rewrite <- (Z.opp_involutive n) at 1. rewrite Z.quot_opp_l by lia.
  f_equal. apply Z.quot_div_nonneg; lia.
Qed.

(** [int] never decreases. *)
Lemma int_mono (x y : Q) : (x <= y)%Q → (int x ≤ int y)%Z.
Proof.
  intros Hxy. destruct (Qlt_le_dec x 0) as [Hx|Hx];
    destruct (Qlt_le_dec y 0) as [Hy|Hy].
  - rewrite !int_nonpos by by apply Qlt_le_weak.
    apply Z.opp_le_mono. rewrite !Z.opp_involutive.
    apply Qfloor_resp_le. by apply Qopp_le_compat.
  - rewrite (int_nonpos x) by by apply Qlt_le_weak.
    rewrite (int_nonneg y) by done.
    assert (0 ≤ Qfloor (- x))%Z.
    { change 0%Z with (Qfloor 0). apply Qfloor_resp_le.
      apply Qlt_le_weak in Hx. apply Qopp_le_compat in Hx. exact Hx. }
    assert (0 ≤ Qfloor y)%Z.
    { change 0%Z with (Qfloor 0). by apply Qfloor_resp_le. }
    lia.
  - exfalso. apply (Qlt_irrefl 0).
    apply Qle_lt_trans with x; [done|]. by apply Qle_lt_trans with y.
  - rewrite !int_nonneg by done. by apply Qfloor_resp_le.
Qed.

Lemma product_le (a b : Z) (c : Q) :
  (a ≤ b)%Z → (0 <= c)%Q → (inject_Z a * c <= inject_Z b * c)%Q.
Proof.
  intros Hab Hc. apply Qmult_le_compat_r; [|done]. by rewrite <- Zle_Qle.
Qed.

Lemma cell_position_mono (g : CalibratedGrid) (row row' col col' : Z) :
  (0 <= grid_width g)%Q → (0 <= grid_height g)%Q →
  (row ≤ row')%Z → (col ≤ col')%Z →
  ((cell_badge_position g row col).1 ≤ (cell_badge_position g row col').1)%Z
  ∧ ((cell_badge_position g row col).2 ≤ (cell_badge_position g row' col).2)%Z.
Proof.
  intros Hw Hh Hrow Hcol. unfold cell_badge_position, cell_width, cell_height.
  simpl. split; apply int_mono.
  - assert (Hcw : (0 <= grid_width g / 8)%Q).
    { apply Qle_shift_div_l; [done|]. by rewrite Qmult_0_l. }
    pose proof (product_le col col' _ Hcol Hcw) as Hp.
    repeat apply Qplus_le_compat; try apply Qle_refl. exact Hp.
  - assert (Hch : (0 <= grid_height g / 2)%Q).
    { apply Qle_shift_div_l; [done|]. by rewrite Qmult_0_l. }
    pose proof (product_le row row' _ Hrow Hch) as Hp.
    repeat apply Qplus_le_compat; try apply Qle_refl. exact Hp.
Qed.

(** X6: with a calibration whose right edge is not left of its left edge
    and whose bottom edge is not above its top edge, the badges are laid
    out in reading order: of two cards in the same row the later one is not
    to the left of the earlier one and is at the same height, and a card of
    the second row is not above a card of the first. *)
Theorem positions_reading_order (configuration : Configuration) (n : Z)
    (left_ top_ right_ bottom_ : Z) (i j : nat) (pi pj : Z * Z) :
  (1 ≤ n ≤ 15)%Z → (0 < right_ - left_)%Z → (0 < bottom_ - top_)%Z →
  (default 0.16 (ingame_grid_left (features configuration))
   <= default 0.826 (ingame_grid_right (features configuration)))%Q →
  (default 0.32 (ingame_grid_top (features configuration))
   <= default 0.654 (ingame_grid_bottom (features configuration)))%Q →
  _calculate_card_positions configuration n (left_, top_, right_, bottom_) !! i
  = Some pi →
  _calculate_card_positions configuration n (left_, top_, right_, bottom_) !! j
  = Some pj →
  (i ≤ j)%nat →
  (pi.2 ≤ pj.2)%Z
  ∧ ((i `div` 8 = j `div` 8)%nat → (pi.1 ≤ pj.1)%Z ∧ pi.2 = pj.2).
Proof.
  intros Hn Hw Hh Hlr Htb Hi Hj Hij.
  rewrite positions_on_eight_columns in Hi, Hj by lia.
  change (map ?f ?l) with (f <$> l) in Hi, Hj.
  rewrite list_lookup_fmap in Hi, Hj. unfold range in Hi, Hj.
  apply fmap_Some in Hi as (xi & Hxi & ->).
  apply fmap_Some in Hj as (xj & Hxj & ->).
  apply lookup_seqZ in Hxi as [-> Hilt]. apply lookup_seqZ in Hxj as [-> Hjlt].
  rewrite !Z.add_0_l.
  set (g := calibrated_grid configuration (left_, top_, right_, bottom_)).
  assert (Hgw : (0 <= grid_width g)%Q).
  { unfold g. simpl. apply Qmult_le_0_compat.
    - by apply (Qplus_le_l _ _ (default 0.16%Q (ingame_grid_left (features configuration)))); ring_simplify.
    - change 0%Q with (inject_Z 0). rewrite <- Zle_Qle. lia. }
  assert (Hgh : (0 <= grid_height g)%Q).
  { unfold g. simpl. apply Qmult_le_0_compat.
    - by apply (Qplus_le_l _ _ (default 0.32%Q (ingame_grid_top (features configuration)))); ring_simplify.
    - change 0%Q with (inject_Z 0). rewrite <- Zle_Qle. lia. }
  assert (Hrow : (Z.of_nat i `div` 8 ≤ Z.of_nat j `div` 8)%Z)
    by (apply Z.div_le_mono; lia).
  split.
  - simpl. apply int_mono.
    assert (Hch' : (0 <= cell_height g)%Q).
    { unfold cell_height. apply Qle_shift_div_l; [done|]. by rewrite Qmult_0_l. }
    pose proof (product_le _ _ _ Hrow Hch') as Hp.
    repeat apply Qplus_le_compat; try apply Qle_refl. exact Hp.
  - intros Hsame.
    assert (Hsame' : (Z.of_nat i `div` 8 = Z.of_nat j `div` 8)%Z).
    { change 8%Z with (Z.of_nat 8). rewrite <- !Nat2Z.inj_div. by f_equal. }
    assert (Hcol : (Z.of_nat i `mod` 8 ≤ Z.of_nat j `mod` 8)%Z).
    { pose proof (Z.div_mod (Z.of_nat i) 8). pose proof (Z.div_mod (Z.of_nat j) 8).
      lia. }
    rewrite Hsame'. split; [|done].
    apply (cell_position_mono g _ _ _ _ Hgw Hgh (Z.le_refl _) Hcol).
Qed.

Lemma positions_reading_order_witness :
  ((286, 266).2 ≤ (369, 266).2)%Z
  ∧ ((0 `div` 8 = 1 `div` 8)%nat
     → ((286, 266).1 ≤ (369, 266).1)%Z ∧ (286, 266).2 = (369, 266).2)%Z.
Proof.
  apply (positions_reading_order Scenario.enabled 3 100 100 1100 600 0 1
           (286, 266)%Z (369, 266)%Z); try lia; try reflexivity;
    vm_compute; discriminate.
Defined.

End LayoutMore.

Module OverlayMore.
Import Sort Layout Overlay SortFacts LayoutFacts OverlayFacts.

(** *** The three outcomes of a reposition *)

Lemma position_badges_not_located (configuration : Configuration) (env : Env)
    (self : InGameOverlay) :
  truthy_list (_last_pack_cards self) = false
  ∨ truthy_dict (_last_ratings self) = false
  ∨ _find_mtga_window env = None
  ∨ (∃ hwnd, _find_mtga_window env = Some hwnd
             ∧ (_is_minimized hwnd = true ∨ _get_mtga_rect hwnd = None)) →
  _position_badges configuration env self = _hide_all self.
Proof.
  intros Hcase. unfold _position_badges.
  destruct (truthy_list (_last_pack_cards self)) eqn:Hpack; [|done].
  rewrite (truthy_sort_pack _ Hpack : truthy_list (sorted _ _) = true).
  destruct (truthy_dict (_last_ratings self)) eqn:Hratings; [|done].
  simpl negb. simpl orb. cbv iota.
  destruct Hcase as [?|[?|[Hnone|(hwnd & Hfind & Hbad)]]]; try done.
  - by rewrite Hnone.
  - rewrite Hfind. destruct Hbad as [->| ->]; [done|].
    by destruct (_is_minimized hwnd).
Qed.

Lemma position_badges_bad_layout (configuration : Configuration) (env : Env)
    (self : InGameOverlay) (rect : WindowRect) :
  truthy_list (_last_pack_cards self) = true →
  truthy_dict (_last_ratings self) = true →
  located env rect →
  (15 < length (_last_pack_cards self))%nat ∨ ¬ positive_rect rect →
  _position_badges configuration env self
  = _hide_all (set_last_mtga_rect (Some rect) self).
Proof.
  intros Hpack Hratings (hwnd & Hfind & Hmin & Hrect) Hbad.
  unfold _position_badges. rewrite Hpack.
  rewrite (truthy_sort_pack _ Hpack : truthy_list (sorted _ _) = true).
  rewrite Hratings. simpl negb. simpl orb. cbv iota.
  rewrite Hfind, Hmin, Hrect. rewrite sorted_length.
  destruct rect as [[[l t] r] b].
  rewrite positions_empty.
  - apply truthy_list_length in Hpack.
    destruct (length (_last_pack_cards self)); [lia|done].
  - destruct Hbad as [Hlen|Hrect']; [lia|].
    unfold positive_rect in Hrect'. lia.
Qed.

Lemma positive_rect_dec (rect : WindowRect) :
  positive_rect rect ∨ ¬ positive_rect rect.
Proof.
  destruct rect as [[[l t] r] b]. unfold positive_rect.
  destruct (decide (0 < r - l ∧ 0 < b - t)%Z); [by left|by right].
Qed.

Lemma position_badges_outcome (configuration : Configuration) (env : Env)
    (self : InGameOverlay) :
  _position_badges configuration env self = _hide_all self
  ∨ (∃ rect, located env rect
             ∧ _position_badges configuration env self
               = _hide_all (set_last_mtga_rect (Some rect) self))
  ∨ (∃ rect, reposition_succeeds env self rect).
Proof.
  destruct (truthy_list (_last_pack_cards self)) eqn:Hpack;
    [|left; apply position_badges_not_located; by left].
  destruct (truthy_dict (_last_ratings self)) eqn:Hratings;
    [|left; apply position_badges_not_located; right; by left].
  destruct (_find_mtga_window env) as [hwnd|] eqn:Hfind;
    [|left; apply position_badges_not_located; right; right; by left].
  destruct (_is_minimized hwnd) eqn:Hmin.
  { left. apply position_badges_not_located. do 3 right. exists hwnd. eauto. }
  destruct (_get_mtga_rect hwnd) as [rect|] eqn:Hrect.
  2: { left. apply position_badges_not_located. do 3 right. exists hwnd. eauto. }
  assert (Hloc : located env rect) by (exists hwnd; eauto).
  right.
  destruct (decide (length (_last_pack_cards self) ≤ 15)%nat) as [Hlen|Hlen].
  - destruct (positive_rect_dec rect) as [Hpos|Hpos].
    + right. exists rect. by split_and!.
    + left. exists rect. split; [done|].
      apply position_badges_bad_layout; try done. by right.
  - left. exists rect. split; [done|].
    apply position_badges_bad_layout; try done. left. lia.
Qed.

Lemma success_badges_length (configuration : Configuration) (env : Env)
    (self : InGameOverlay) (rect : WindowRect) :
  reposition_succeeds env self rect →
  length (_badges (_position_badges configuration env self))
  = (length (_badges self) `max` length (_last_pack_cards self))%nat.
Proof.
  intros Hsucc.
  destruct (position_badges_success configuration env self rect Hsucc)
    as [_ Heq].
  rewrite Heq. cbn [_badges set_badges].
  rewrite (foldl_alter_length (fun _ => hide) (fun idx => idx)).
  rewrite (foldl_alter_length
             (fun item => show_item _ _ item.1 item.2) (fun item => item.1)).
  rewrite length_app, length_replicate. unfold sort_pack.
  rewrite sorted_length. lia.
Qed.

Lemma position_badges_cache (configuration : Configuration) (env : Env)
    (self : InGameOverlay) :
  _last_pack_cards (_position_badges configuration env self)
  = _last_pack_cards self
  ∧ _last_ratings (_position_badges configuration env self)
    = _last_ratings self
  ∧ _last_pick_number (_position_badges configuration env self)
    = _last_pick_number self.
Proof.
  destruct (position_badges_outcome configuration env self)
    as [->|[(rect & _ & ->)|(rect & Hsucc)]]; [done..|].
  destruct (position_badges_success configuration env self rect Hsucc)
    as [_ ->]. done.
Qed.

(** X7: a reposition and a cadence tick never change the cached pack, the
    cached ratings or the cached pick number, whatever the window does. *)
Theorem reposition_keeps_cache (configuration : Configuration) (env : Env)
    (self : InGameOverlay) :
  (_last_pack_cards (_position_badges configuration env self)
   = _last_pack_cards self
   ∧ _last_ratings (_position_badges configuration env self)
     = _last_ratings self
   ∧ _last_pick_number (_position_badges configuration env self)
     = _last_pick_number self)
  ∧ (_last_pack_cards (_poll_tick configuration env self)
     = _last_pack_cards self
     ∧ _last_ratings (_poll_tick configuration env self) = _last_ratings self
     ∧ _last_pick_number (_poll_tick configuration env self)
       = _last_pick_number self).
Proof.
  split; [apply position_badges_cache|].
  unfold _poll_tick. destruct (_ && _ && _); [|done].
  apply position_badges_cache.
Qed.

(** X8: with the flag on, [update] on Windows stores its three arguments
    as the cache whether or not the badges can then be placed; on any other
    platform it returns at once: nothing is stored and no badge is
    touched. *)
Theorem update_while_enabled (configuration : Configuration) (env : Env)
    (pack_cards : list Card) (ratings_dict : gmap string Q) (pick_number : Z)
    (self : InGameOverlay) :
  ingame_overlay_enabled (settings configuration) = true →
  let self' := update configuration env pack_cards ratings_dict pick_number self in
  (platform_win32 env = true →
   _last_pack_cards self' = pack_cards
   ∧ _last_ratings self' = ratings_dict
   ∧ _last_pick_number self' = pick_number)
  ∧ (platform_win32 env = false → self' = self).
Proof.
  intros Hon self'. unfold self', update. rewrite Hon. simpl negb. cbv iota.
  split; intros Hwin; rewrite Hwin; simpl negb; cbv iota; [|done].
  destruct (position_badges_outcome configuration env
              (set_last pack_cards ratings_dict pick_number self))
    as [->|[(rect & _ & ->)|(rect & Hsucc)]]; [done..|].
  destruct (position_badges_success configuration env _ rect Hsucc) as [_ ->].
  done.
Qed.

Lemma update_while_enabled_witness :
  let self' :=
    update Scenario.enabled Scenario.env Scenario.pack Scenario.ratings 1 init in
  _last_pack_cards self' = Scenario.pack
  ∧ _last_ratings self' = Scenario.ratings
  ∧ _last_pick_number self' = 1%Z.
Proof.
  apply (update_while_enabled Scenario.enabled Scenario.env Scenario.pack
           Scenario.ratings 1 init); reflexivity.
Defined.

Lemma position_badges_length_le (configuration : Configuration) (env : Env)
    (self : InGameOverlay) :
  (length (_badges self)
   ≤ length (_badges (_position_badges configuration env self)))%nat.
Proof.
  destruct (position_badges_outcome configuration env self)
    as [->|[(rect & _ & ->)|(rect & Hsucc)]].
  - simpl. by rewrite length_map.
  - simpl. by rewrite length_map.
  - rewrite (success_badges_length _ _ _ rect Hsucc). lia.
Qed.

(** X9: the pool of badges never shrinks: after [update], after a cadence
    tick and after the public [hide_all] the overlay has at least as many
    badges as before, and after a successful reposition it has as many as
    the larger of the old pool and the pack. *)
Theorem badge_pool_never_shrinks (configuration : Configuration) (env : Env)
    (pack_cards : list Card) (ratings_dict : gmap string Q) (pick_number : Z)
    (self : InGameOverlay) :
  (length (_badges self)
   ≤ length (_badges (update configuration env pack_cards ratings_dict
                        pick_number self)))%nat
  ∧ (length (_badges self)
     ≤ length (_badges (_poll_tick configuration env self)))%nat
  ∧ length (_badges (hide_all self)) = length (_badges self)
  ∧ (∀ rect, reposition_succeeds env self rect →
       length (_badges (_position_badges configuration env self))
       = (length (_badges self) `max` length (_last_pack_cards self))%nat).
Proof.
  split_and!.
  - unfold update. destruct (negb _); [simpl; by rewrite length_map|].
    destruct (negb _); [done|].
    apply (position_badges_length_le configuration env
             (set_last pack_cards ratings_dict pick_number self)).
  - unfold _poll_tick. destruct (_ && _ && _); [|done].
    apply position_badges_length_le.
  - simpl. by rewrite length_map.
  - intros rect. apply success_badges_length.
Qed.

Lemma badge_pool_never_shrinks_witness :
  length (_badges (_position_badges Scenario.enabled Scenario.env
                     (set_last Scenario.pack Scenario.ratings 1 init)))
  = (length (_badges (set_last Scenario.pack Scenario.ratings 1 init))
     `max` length (_last_pack_cards (set_last Scenario.pack Scenario.ratings 1 init)))%nat.
Proof.
  apply (proj2 (proj2 (proj2
           (badge_pool_never_shrinks Scenario.enabled Scenario.env [] ∅ 0
              (set_last Scenario.pack Scenario.ratings 1 init))))
           Scenario.rect).
  apply scenario_reposition_succeeds. vm_compute. reflexivity.
Defined.

(** X10: when no pack or no ratings are cached, or the window is not found
    (always so off Windows), is minimized or has no readable rectangle, or
    the pack has more than 15 cards, or the rectangle has no positive width
    and height, a reposition hides every badge and keeps the pool and the
    labels of the badges as they are. *)
Theorem failed_reposition_hides_all (configuration : Configuration) (env : Env)
    (self : InGameOverlay) :
  truthy_list (_last_pack_cards self) = false
  ∨ truthy_dict (_last_ratings self) = false
  ∨ platform_win32 env = false
  ∨ mtga_window env = None
  ∨ (∃ hwnd, _find_mtga_window env = Some hwnd
             ∧ (_is_minimized hwnd = true
                ∨ _get_mtga_rect hwnd = None
                ∨ ∃ rect, _get_mtga_rect hwnd = Some rect
                          ∧ ((15 < length (_last_pack_cards self))%nat
                             ∨ ¬ positive_rect rect))) →
  _badges (_position_badges configuration env self) = map hide (_badges self)
  ∧ Forall (fun b => _visible b = false)
      (_badges (_position_badges configuration env self))
  ∧ map shown (_badges (_position_badges configuration env self))
    = map shown (_badges self).
Proof.
  intros Hcase.
  assert (Hbadges :
    _badges (_position_badges configuration env self) = map hide (_badges self)).
  { destruct (truthy_list (_last_pack_cards self)) eqn:Hpack;
      [|rewrite position_badges_not_located by (by left); done].
    destruct (truthy_dict (_last_ratings self)) eqn:Hratings;
      [|rewrite position_badges_not_located by (right; by left); done].
    destruct Hcase as [?|[?|[Hwin|[Hnone|(hwnd & Hfind & Hbad)]]]]; try done.
    - rewrite position_badges_not_located; [done|].
      right; right; left. unfold _find_mtga_window. by rewrite Hwin.
    - rewrite position_badges_not_located; [done|].
      right; right; left. unfold _find_mtga_window. rewrite Hnone.
      by destruct (platform_win32 env).
    - destruct Hbad as [Hmin|[Hrect|(rect & Hrect & Hbad)]].
      + rewrite position_badges_not_located; [done|]. do 3 right. eauto.
      + rewrite position_badges_not_located; [done|]. do 3 right. eauto.
      + destruct (_is_minimized hwnd) eqn:Hmin.
        * rewrite position_badges_not_located; [done|]. do 3 right. eauto.
        * rewrite (position_badges_bad_layout _ _ _ rect); try done.
          exists hwnd. eauto. }
  rewrite Hbadges. split_and!; [done| |].
  - apply Forall_map. by apply Forall_true.
  - rewrite map_map. done.
Qed.

Lemma failed_reposition_hides_all_witness :
  let minimized :=
    {| platform_win32 := true;
       mtga_window := Some {| hwnd_minimized := true;
                              hwnd_rect := Some Scenario.rect |} |} in
  _badges (_position_badges Scenario.enabled minimized Scenario.shown_overlay)
  = map hide (_badges Scenario.shown_overlay)
  ∧ Forall (fun b => _visible b = false)
      (_badges (_position_badges Scenario.enabled minimized Scenario.shown_overlay))
  ∧ map shown (_badges (_position_badges Scenario.enabled minimized
                          Scenario.shown_overlay))
    = map shown (_badges Scenario.shown_overlay).
Proof.
  apply (failed_reposition_hides_all Scenario.enabled
           {| platform_win32 := true;
              mtga_window := Some {| hwnd_minimized := true;
                                     hwnd_rect := Some Scenario.rect |} |}
           Scenario.shown_overlay).
  do 4 right. eexists. split; [reflexivity|]. left. reflexivity.
Defined.

(** *** The badges after a successful reposition *)

Lemma show_ignores_badge (x y : Z) (rating : Q) (is_best : bool)
    (debug_info : option (nat * string)) (b b' : RatingBadge) :
  show x y rating is_best debug_info b = show x y rating is_best debug_info b'.
Proof. done. Qed.

Lemma show_item_ignores_badge (best_rating : Q) (debug_mode : bool) (idx : nat)
    (item : (Z * Z) * (string * Q)) (b b' : RatingBadge) :
  show_item best_rating debug_mode idx item b
  = show_item best_rating debug_mode idx item b'.
Proof. by destruct item as [pos [nm rating]]. Qed.

Lemma hide_hide (b : RatingBadge) : hide (hide b) = hide b.
Proof. done. Qed.

(** Every slot of the pool after a successful reposition: a slot of the
    pack is shown from the item at its index, a slot beyond the pack is the
    old badge, hidden. *)
Lemma success_badges_lookup (configuration : Configuration) (env : Env)
    (self : InGameOverlay) (rect : WindowRect) (i : nat) :
  reposition_succeeds env self rect →
  let pack_cards := sort_pack (_last_pack_cards self) in
  let positions :=
    _calculate_card_positions configuration (Z.of_nat (length pack_cards)) rect in
  let card_ratings := card_ratings_of (_last_ratings self) pack_cards in
  let best_rating := py_max 0 (map snd card_ratings) in
  let debug_mode :=
    default false (ingame_overlay_debug (features configuration)) in
  _badges (_position_badges configuration env self) !! i
  = if decide (i < length pack_cards)%nat
    then (fun item => show_item best_rating debug_mode i item new_badge)
           <$> zip positions card_ratings !! i
    else hide <$> _badges self !! i.
Proof.
  intros Hsucc pack_cards positions card_ratings best_rating debug_mode.
  destruct (position_badges_success configuration env self rect Hsucc)
    as [Hlen Heq].
  fold pack_cards in Hlen, Heq. fold positions in Hlen, Heq.
  fold card_ratings in Heq. fold best_rating in Heq. fold debug_mode in Heq.
  rewrite Heq. cbn [_badges set_badges].
  set (grown := (_badges self
                 ++ replicate (length pack_cards - length (_badges self))
                      new_badge)%list).
  assert (Hitems : length (zip positions card_ratings) = length pack_cards).
  { rewrite length_zip_with, Hlen. unfold card_ratings, card_ratings_of.
    rewrite length_map. lia. }
  rewrite foldl_alter_seq, foldl_alter_enumerate.
  rewrite (foldl_alter_length
             (fun item => show_item _ _ item.1 item.2) (fun item => item.1)).
  assert (Hgrown : length grown
                   = (length (_badges self) `max` length pack_cards)%nat).
  { unfold grown. rewrite length_app, length_replicate. lia. }
  destruct (decide (i < length pack_cards)%nat) as [Hi|Hi].
  - rewrite decide_False by lia.
    destruct (lookup_lt_is_Some_2 (zip positions card_ratings) i) as [item Hitem];
      [lia|].
    destruct (lookup_lt_is_Some_2 grown i) as [b Hb]; [lia|].
    rewrite Hitem, Hb. simpl. f_equal. apply show_item_ignores_badge.
  - assert (Hnone : zip positions card_ratings !! i = None)
      by (apply lookup_ge_None; lia).
    rewrite Hnone.
    assert (Hsame : grown !! i = _badges self !! i).
    { unfold grown.
      destruct (decide (i < length (_badges self))%nat) as [Hlt|Hge].
      - by rewrite lookup_app_l by lia.
      - rewrite (lookup_ge_None_2 (_badges self)) by lia.
        apply lookup_ge_None. rewrite length_app, length_replicate. lia. }
    rewrite Hsame. destruct (decide _) as [_|Hout]; [done|].
    rewrite (lookup_ge_None_2 (_badges self)); [done|]. lia.
Qed.

Lemma visible_show_item (best_rating : Q) (debug_mode : bool) (idx : nat)
    (item : (Z * Z) * (string * Q)) (b : RatingBadge) :
  _visible (show_item best_rating debug_mode idx item b) = true.
Proof. destruct item as [pos [nm rating]]. apply visible_show. Qed.

Lemma visible_prefix_count (l : list RatingBadge) (n : nat) :
  (n ≤ length l)%nat →
  (∀ i b, l !! i = Some b → _visible b = true ↔ (i < n)%nat) →
  length (List.filter _visible l) = n.
Proof.
  revert n. induction l as [|b l IH]; intros n Hn Hvis; simpl in *.
  - lia.
  - destruct n as [|n].
    + assert (_visible b = false) as ->.
      { apply not_true_iff_false. intros Hb.
        apply (Hvis 0%nat b eq_refl) in Hb. lia. }
      apply (IH 0%nat); [lia|]. intros i b' Hb'.
      rewrite (Hvis (S i) b' Hb'). lia.
    + assert (_visible b = true) as ->
        by (apply (Hvis 0%nat b eq_refl); lia).
      simpl. f_equal. apply IH; [lia|]. intros i b' Hb'.
      rewrite (Hvis (S i) b' Hb'). lia.
Qed.

(** X11: after a successful reposition a badge is visible exactly when its
    index is below the number of cards of the pack, so the number of
    visible badges is the size of the pack. *)
Theorem visible_badges_are_the_pack (configuration : Configuration) (env : Env)
    (self : InGameOverlay) (rect : WindowRect) :
  reposition_succeeds env self rect →
  (∀ i b, _badges (_position_badges configuration env self) !! i = Some b →
     _visible b = true ↔ (i < length (_last_pack_cards self))%nat)
  ∧ length (List.filter _visible
              (_badges (_position_badges configuration env self)))
    = length (_last_pack_cards self).
Proof.
  intros Hsucc.
  assert (Hn : length (sort_pack (_last_pack_cards self))
               = length (_last_pack_cards self))
    by (unfold sort_pack; apply sorted_length).
  assert (Hvis : ∀ i b,
    _badges (_position_badges configuration env self) !! i = Some b →
    _visible b = true ↔ (i < length (_last_pack_cards self))%nat).
  { intros i b.
    rewrite (success_badges_lookup configuration env self rect i Hsucc), Hn.
    destruct (decide _) as [Hi|Hi].
    - intros (item & _ & ->)%fmap_Some. by rewrite visible_show_item.
    - intros (b' & _ & ->)%fmap_Some. simpl. split; [done|lia]. }
  split; [done|]. apply visible_prefix_count; [|done].
  rewrite (success_badges_length _ _ _ rect Hsucc). lia.
Qed.

Lemma visible_badges_are_the_pack_witness :
  length (List.filter _visible
            (_badges (_position_badges Scenario.enabled Scenario.env
                        (set_last Scenario.pack Scenario.ratings 1 init))))
  = length (_last_pack_cards (set_last Scenario.pack Scenario.ratings 1 init)).
Proof.
  apply (proj2 (visible_badges_are_the_pack Scenario.enabled Scenario.env
                  (set_last Scenario.pack Scenario.ratings 1 init) Scenario.rect
                  (scenario_reposition_succeeds Scenario.ratings eq_refl))).
Defined.

Lemma overlay_eq (s1 s2 : InGameOverlay) :
  _badges s1 = _badges s2 →
  _last_mtga_rect s1 = _last_mtga_rect s2 →
  _last_pack_cards s1 = _last_pack_cards s2 →
  _last_ratings s1 = _last_ratings s2 →
  _last_pick_number s1 = _last_pick_number s2 →
  s1 = s2.
Proof. destruct s1, s2. simpl. by intros -> -> -> -> ->. Qed.

Lemma hide_all_hide_all (self : InGameOverlay) :
  _hide_all (_hide_all self) = _hide_all self.
Proof. unfold _hide_all, set_badges. simpl. by rewrite map_map. Qed.

Lemma succeeds_after_reposition (configuration : Configuration) (env : Env)
    (self : InGameOverlay) (rect : WindowRect) :
  reposition_succeeds env self rect →
  reposition_succeeds env (_position_badges configuration env self) rect.
Proof.
  intros Hsucc.
  destruct (position_badges_success configuration env self rect Hsucc)
    as [_ Heq].
  rewrite Heq. exact Hsucc.
Qed.

(** X12: a reposition repeated with the same configuration and the same
    window changes nothing more: the second run leaves the overlay as the
    first run left it. *)
Theorem reposition_idempotent (configuration : Configuration) (env : Env)
    (self : InGameOverlay) :
  _position_badges configuration env
    (_position_badges configuration env self)
  = _position_badges configuration env self.
Proof.
  destruct (truthy_list (_last_pack_cards self)) eqn:Hpack.
  2: { rewrite (position_badges_not_located _ _ self) by (by left).
       rewrite position_badges_not_located by (by left).
       apply hide_all_hide_all. }
  destruct (truthy_dict (_last_ratings self)) eqn:Hratings.
  2: { rewrite (position_badges_not_located _ _ self) by (right; by left).
       rewrite position_badges_not_located by (right; by left).
       apply hide_all_hide_all. }
  destruct (_find_mtga_window env) as [hwnd|] eqn:Hfind.
  2: { rewrite (position_badges_not_located _ _ self)
         by (right; right; by left).
       rewrite position_badges_not_located by (right; right; by left).
       apply hide_all_hide_all. }
  destruct (_is_minimized hwnd) eqn:Hmin.
  { rewrite (position_badges_not_located _ _ self)
      by (do 3 right; exists hwnd; eauto).
    rewrite position_badges_not_located by (do 3 right; exists hwnd; eauto).
    apply hide_all_hide_all. }
  destruct (_get_mtga_rect hwnd) as [rect|] eqn:Hrect.
  2: { rewrite (position_badges_not_located _ _ self)
         by (do 3 right; exists hwnd; eauto).
       rewrite position_badges_not_located by (do 3 right; exists hwnd; eauto).
       apply hide_all_hide_all. }
  assert (Hloc : located env rect) by (exists hwnd; eauto).
  assert (Hbad : (15 < length (_last_pack_cards self))%nat ∨ ¬ positive_rect rect →
                 _position_badges configuration env
                   (_position_badges configuration env self)
                 = _position_badges configuration env self).
  { intros Hbad.
    rewrite (position_badges_bad_layout _ _ self rect) by done.
    rewrite (position_badges_bad_layout _ _ _ rect) by done.
    unfold _hide_all, set_badges, set_last_mtga_rect. simpl.
    by rewrite map_map. }
  destruct (decide (length (_last_pack_cards self) ≤ 15)%nat) as [Hlen|Hlen];
    [|apply Hbad; left; lia].
  destruct (positive_rect_dec rect) as [Hpos|Hpos]; [|apply Hbad; by right].
  assert (Hsucc : reposition_succeeds env self rect) by by split_and!.
  pose proof (succeeds_after_reposition configuration env self rect Hsucc)
    as Hsucc'.
  destruct (position_badges_cache configuration env self)
    as (Hcpack & Hcratings & Hcpick).
  assert (Hlast : ∀ s, reposition_succeeds env s rect →
            _last_mtga_rect (_position_badges configuration env s) = Some rect).
  { intros s Hs.
    destruct (position_badges_success configuration env s rect Hs) as [_ ->].
    done. }
  apply overlay_eq.
  - apply list_eq. intros i.
    rewrite (success_badges_lookup configuration env _ rect i Hsucc').
    rewrite Hcpack, Hcratings.
    rewrite (success_badges_lookup configuration env self rect i Hsucc).
    destruct (decide _) as [Hi|Hi]; [done|].
    by rewrite <- option_fmap_compose.
  - by rewrite !Hlast.
  - apply position_badges_cache.
  - apply position_badges_cache.
  - apply position_badges_cache.
Qed.

(** X13: the public [hide_all] hides every badge, empties the cached pack
    and ratings and keeps the pick number; after it a cadence tick does
    nothing, whatever the configuration and the window, until the next
    [update]. *)
Theorem hide_all_then_tick (configuration : Configuration) (env : Env)
    (self : InGameOverlay) :
  Forall (fun b => _visible b = false) (_badges (hide_all self))
  ∧ _last_pack_cards (hide_all self) = []
  ∧ _last_ratings (hide_all self) = ∅
  ∧ _last_pick_number (hide_all self) = _last_pick_number self
  ∧ _poll_tick configuration env (hide_all self) = hide_all self.
Proof.
  split_and!; try done.
  - simpl. apply Forall_map. by apply Forall_true.
  - unfold _poll_tick. simpl. by rewrite andb_false_r.
Qed.

Lemma substring_0_length (n : nat) (s : string) :
  (n ≤ String.length s)%nat → String.length (substring 0 n s) = n.
Proof.
  revert s. induction n as [|n IH]; intros [|c s] Hn; simpl in *;
    try done; try lia.
  f_equal. apply IH. lia.
Qed.

(** X14: after a successful reposition the badge of the [i]-th card of the
    sorted pack sits at the [i]-th computed position and shows that card's
    rating from the map (0.0 when the name is absent), in the colours of
    [_tier_colors]; its label carries the debug suffix, the index and at
    most the first ten characters of the name, exactly when the debug flag
    of the configuration is set. *)
Theorem slot_shows_its_card (configuration : Configuration) (env : Env)
    (self : InGameOverlay) (rect : WindowRect) (i : nat) (card : Card) :
  reposition_succeeds env self rect →
  sort_pack (_last_pack_cards self) !! i = Some card →
  let pack_cards := sort_pack (_last_pack_cards self) in
  let rating := default 0%Q (_last_ratings self !! card_name card) in
  let best_rating :=
    py_max 0 (map snd (card_ratings_of (_last_ratings self) pack_cards)) in
  let nm := card_name card in
  ∃ (pos : Z * Z) (s : Shown),
    _calculate_card_positions configuration (Z.of_nat (length pack_cards)) rect !! i
    = Some pos
    ∧ _badges (_position_badges configuration env self) !! i
      = Some {| shown := Some s; _visible := true |}
    ∧ (shown_x s, shown_y s) = pos
    ∧ shown_rating s = rating
    ∧ (shown_bg s, shown_fg s)
      = _tier_colors rating (is_best_of best_rating rating)
    ∧ shown_debug s
      = (if default false (ingame_overlay_debug (features configuration))
         then Some (i, if (10 <? String.length nm)%nat
                       then substring 0 10 nm else nm)
         else None)
    ∧ match shown_debug s with
      | Some (_, short_name) => (String.length short_name ≤ 10)%nat
      | None => True
      end.
Proof.
  intros Hsucc Hcard pack_cards rating best_rating nm.
  destruct (reposition_slot configuration env self rect i card Hsucc Hcard)
    as (pos & b0 & Hpos & Hb).
  fold pack_cards in Hpos, Hb. fold rating in Hb. fold best_rating in Hb.
  fold nm in Hb. rewrite Hb. unfold show.
  destruct (_tier_colors rating (is_best_of best_rating rating)) as [bg fg].
  exists pos. eexists. split; [done|]. split; [reflexivity|]. simpl.
  destruct pos as [x y]. split_and!; try done.
  - by destruct (default false _).
  - destruct (default false _); [|done].
    destruct (10 <? String.length nm)%nat eqn:E.
    + apply Nat.ltb_lt in E. rewrite substring_0_length; lia.
    + apply Nat.ltb_ge in E. lia.
Qed.

Lemma slot_shows_its_card_witness :
  let self := set_last Scenario.pack Scenario.ratings 1 init in
  ∃ (pos : Z * Z) (s : Shown),
    _calculate_card_positions Scenario.enabled
      (Z.of_nat (length (sort_pack (_last_pack_cards self)))) Scenario.rect !! 1%nat
    = Some pos
    ∧ _badges (_position_badges Scenario.enabled Scenario.env self) !! 1%nat
      = Some {| shown := Some s; _visible := true |}
    ∧ (shown_x s, shown_y s) = pos
    ∧ shown_rating s = 80%Q.
Proof.
  destruct (slot_shows_its_card Scenario.enabled Scenario.env
              (set_last Scenario.pack Scenario.ratings 1 init) Scenario.rect 1
              Scenario.shock
              (scenario_reposition_succeeds Scenario.ratings eq_refl) eq_refl)
    as (pos & s & Hpos & Hb & Hxy & Hr & _).
  exists pos, s. split_and!; [exact Hpos|exact Hb|exact Hxy|exact Hr].
Defined.

(** *** Tier colours *)

Lemma Qle_bool_false_lt (a b : Q) : Qle_bool a b = false → (b < a)%Q.
Proof.
  intros H. apply Qnot_le_lt. intros Hle%Qle_bool_iff. congruence.
Qed.

(** X15: the gold colour pair is returned for a best-in-pack badge and for
    no other, whatever the rating; and a badge that is not best-in-pack has
    the colours of the lowest tier exactly when its rating is below 30. *)
Theorem tier_colors_edges (rating : Q) (is_best : bool) :
  (_tier_colors rating is_best = best_in_pack_colors ↔ is_best = true)
  ∧ (_tier_colors rating false = lowest_tier_colors ↔ (rating < 30)%Q).
Proof.
  split; [apply tier_colors_best|].
  unfold _tier_colors, lowest_tier_colors.
  assert (Hge : ∀ k : Q, (30 <= k)%Q → Qle_bool k rating = true →
                         ¬ (rating < 30)%Q).
  { intros k Hk Hle%Qle_bool_iff Hlt.
    apply (Qlt_irrefl rating). apply Qlt_le_trans with 30%Q; [done|].
    by apply Qle_trans with k. }
  destruct (Qle_bool 90 rating) eqn:E90;
    [split; [done|intros H; by apply (Hge 90%Q) in H]|].
  destruct (Qle_bool 75 rating) eqn:E75;
    [split; [done|intros H; by apply (Hge 75%Q) in H]|].
  destruct (Qle_bool 65 rating) eqn:E65;
    [split; [done|intros H; by apply (Hge 65%Q) in H]|].
  destruct (Qle_bool 58 rating) eqn:E58;
    [split; [done|intros H; by apply (Hge 58%Q) in H]|].
  destruct (Qle_bool 52 rating) eqn:E52;
    [split; [done|intros H; by apply (Hge 52%Q) in H]|].
  destruct (Qle_bool 45 rating) eqn:E45;
    [split; [done|intros H; by apply (Hge 45%Q) in H]|].
  destruct (Qle_bool 30 rating) eqn:E30;
    [split; [done|intros H; by apply (Hge 30%Q) in H]|].
  split; [intros _|done]. by apply Qle_bool_false_lt.
Qed.

End OverlayMore.

Module RatingMore.
Import Overlay Rating RatingApi RatingFacts.

Section EngineMore.
Context {Session : Type} (world : World Session).

(** *** The artifact cache *)

(** X16: a session that [get_model] has returned is served from the cache
    by every later call for the same set and mode, without any file access
    and whatever has happened to the files since, as long as the inference
    runtime is available; a call that returns [None] caches nothing, so the
    next call looks for the files again. *)
Theorem get_model_cache (world' : World Session) (set_code mode : string)
    (mgr mgr' : MLModelManager Session) (result : option Session) :
  get_model world set_code mode mgr = (inr result, mgr') →
  match result with
  | Some session =>
      ONNX_AVAILABLE world' = true →
      get_model world' set_code mode mgr' = (inr (Some session), mgr')
  | None => mgr' = mgr
  end.
Proof.
  intros Hget.
  destruct (get_model_cases world set_code mode mgr)
    as [Hnone|(session & mgr0 & Hsome & _ & Hcache & _)].
  - rewrite Hnone in Hget. by injection Hget as <- <-.
  - rewrite Hsome in Hget. injection Hget as <- <-.
    intros Honnx. by apply get_model_cached.
Qed.

(** The path of the artifact of a set and a mode. *)
Lemma get_model_uncached (set_code mode : string) (mgr : MLModelManager Session) :
  ONNX_AVAILABLE world = true →
  _sessions mgr !! (set_code ++ "_" ++ mode) = None →
  get_model world set_code mode mgr
  = get_model_loop world (set_code ++ "_" ++ mode) set_code
      (if bool_decide (mode = "Premier") then [mode; "PickTwo"] else [mode]) mgr.
Proof.
  intros Honnx Hcache. unfold get_model. rewrite Honnx. simpl.
  unfold mbind, M_bind, bind, gets. simpl. by rewrite Hcache.
Qed.

Lemma get_model_loop_cons (cache_key set_code try_mode : string)
    (rest : list string) (mgr : MLModelManager Session) :
  get_model_loop world cache_key set_code (try_mode :: rest) mgr
  = if os_path_exists world
         (os_path_join world
            [model_directory mgr; "onnx"; set_code ++ "_" ++ try_mode ++ ".onnx"])
    then
      match InferenceSession world
              (os_path_join world
                 [model_directory mgr; "onnx";
                  set_code ++ "_" ++ try_mode ++ ".onnx"]) with
      | inl _ => (inr None, mgr)
      | inr session =>
          (inr (Some session),
           set_sessions (<[cache_key := session]> (_sessions mgr)) mgr)
      end
    else get_model_loop world cache_key set_code rest mgr.
Proof.
  cbn [get_model_loop]. unfold mbind, M_bind, bind, gets. cbv beta iota zeta.
  destruct (os_path_exists world _); [|done].
  unfold try_except, lift, modify, ret, bind.
  by destruct (InferenceSession world _).
Qed.

(** X17: the fallback to the PickTwo artifact is one-directional.  With
    nothing cached and the runtime available: a request for Premier whose
    file is missing loads the PickTwo file of the set and caches it under
    the Premier key; a request for any other mode whose file is missing
    returns [None] without looking at another mode; and a Premier file that
    exists but fails to load ends the search with [None]: the PickTwo file
    is not tried. *)
Theorem premier_falls_back_to_picktwo (set_code mode : string)
    (mgr : MLModelManager Session) :
  ONNX_AVAILABLE world = true →
  _sessions mgr !! (set_code ++ "_" ++ mode) = None →
  let path_of (m : string) :=
    os_path_join world
      [model_directory mgr; "onnx"; set_code ++ "_" ++ m ++ ".onnx"] in
  (mode = "Premier" → os_path_exists world (path_of "Premier") = false →
   os_path_exists world (path_of "PickTwo") = true →
   ∀ session, InferenceSession world (path_of "PickTwo") = inr session →
     get_model world set_code mode mgr
     = (inr (Some session),
        set_sessions (<[set_code ++ "_Premier" := session]> (_sessions mgr)) mgr))
  ∧ (mode ≠ "Premier" → os_path_exists world (path_of mode) = false →
     get_model world set_code mode mgr = (inr None, mgr))
  ∧ (mode = "Premier" → os_path_exists world (path_of "Premier") = true →
     ∀ e, InferenceSession world (path_of "Premier") = inl e →
       get_model world set_code mode mgr = (inr None, mgr)).
Proof.
  intros Honnx Hcache path_of.
  rewrite (get_model_uncached set_code mode mgr Honnx Hcache).
  unfold path_of. split_and!.
  - intros -> Hprem Hpick session Hload.
    rewrite bool_decide_eq_true_2 by done.
    by rewrite get_model_loop_cons, Hprem, get_model_loop_cons, Hpick, Hload.
  - intros Hmode Hmissing. rewrite bool_decide_eq_false_2 by done.
    by rewrite get_model_loop_cons, Hmissing.
  - intros -> Hprem e Hload. rewrite bool_decide_eq_true_2 by done.
    by rewrite get_model_loop_cons, Hprem, Hload.
Qed.

(** X18: a vocabulary that [get_cardnames] has returned is served from the
    cache by every later call for the same set, whatever has happened to
    the file since; a call that returns [None] caches nothing. *)
Theorem get_cardnames_cache (world' : World Session) (set_code : string)
    (mgr mgr' : MLModelManager Session) (result : option (list string)) :
  get_cardnames world set_code mgr = (inr result, mgr') →
  match result with
  | Some cardnames =>
      get_cardnames world' set_code mgr' = (inr (Some cardnames), mgr')
  | None => mgr' = mgr
  end.
Proof.
  unfold get_cardnames, mbind, M_bind, bind, gets. simpl.
  destruct (_cardnames mgr !! set_code) as [cached|] eqn:Hcache.
  - intros [= <- <-]. by rewrite Hcache.
  - destruct (os_path_exists world _); simpl; [|by intros [= <- <-]].
    unfold try_except, lift, modify, ret. simpl.
    destruct (read_csv_names world _) as [e|cardnames];
      intros [= <- <-]; [done|].
    simpl. by rewrite lookup_insert_eq.
Qed.

(** X19: [set_model_directory] empties both caches: afterwards the files
    are looked for under the new directory, so a set whose files are not
    there no longer resolves, even if its session and its vocabulary were
    cached before. *)
Theorem set_model_directory_clears (path set_code mode : string)
    (mgr : MLModelManager Session) :
  (∀ m, os_path_exists world
          (os_path_join world [path; "onnx"; set_code ++ "_" ++ m ++ ".onnx"])
        = false) →
  os_path_exists world (os_path_join world [path; "cards"; set_code ++ ".csv"])
  = false →
  get_model world set_code mode (set_model_directory path mgr)
  = (inr None, set_model_directory path mgr)
  ∧ get_cardnames world set_code (set_model_directory path mgr)
    = (inr None, set_model_directory path mgr).
Proof.
  intros Honnx_files Hcsv. split.
  - destruct (ONNX_AVAILABLE world) eqn:Honnx.
    + rewrite get_model_uncached by done.
      destruct (bool_decide (mode = "Premier"));
        rewrite !get_model_loop_cons;
        cbn [model_directory set_model_directory];
        by rewrite !Honnx_files.
    + unfold get_model. by rewrite Honnx.
  - unfold get_cardnames, mbind, M_bind, bind, gets. cbv beta iota zeta.
    cbn [_cardnames set_model_directory]. rewrite lookup_empty.
    change (model_directory (set_model_directory path mgr)) with path.
    by rewrite Hcsv.
Qed.

End EngineMore.

Lemma get_model_cache_witness :
  get_model Example.world "TST" "Premier"
    (set_sessions (<["TST_Premier" := tt]> ∅) Example.manager)
  = (inr (Some tt), set_sessions (<["TST_Premier" := tt]> ∅) Example.manager).
Proof.
  apply (get_model_cache Example.world Example.world "TST" "Premier"
           Example.manager
           (set_sessions (<["TST_Premier" := tt]> ∅) Example.manager)
           (Some tt)).
  - vm_compute. reflexivity.
  - reflexivity.
Defined.

(** *** The collection vector *)

Lemma foldl_alter_length_index (cardnames pool_names : list string)
    (zs : list Z) :
  length (foldl (fun v nm =>
                   match list_index nm cardnames with
                   | Some idx => alter (fun c => (c + 1)%Z) idx v
                   | None => v
                   end)
                zs pool_names)
  = length zs.
Proof.
  revert zs. induction pool_names as [|nm pool_names IH]; intros zs; simpl;
    [done|].
  rewrite IH. destruct (list_index nm cardnames); [apply length_alter|done].
Qed.

Lemma inject_Z_succ (z : Z) : (inject_Z z + 1)%Q = inject_Z (z + 1).
Proof. unfold Qplus, inject_Z. simpl. f_equal. lia. Qed.

Lemma collection_fold_Z (cardnames pool_names : list string) (zs : list Z) :
  foldl (fun v nm =>
           match list_index nm cardnames with
           | Some idx => alter (fun c => (c + 1)%Q) idx v
           | None => v
           end)
        (inject_Z <$> zs) pool_names
  = inject_Z
      <$> foldl (fun v nm =>
                   match list_index nm cardnames with
                   | Some idx => alter (fun c => (c + 1)%Z) idx v
                   | None => v
                   end)
                zs pool_names.
Proof.
  revert zs. induction pool_names as [|nm pool_names IH]; intros zs; simpl;
    [done|].
  destruct (list_index nm cardnames) as [idx|]; [|apply IH].
  rewrite <- IH. f_equal. symmetry. apply list_fmap_alter.
  apply Forall_true. intros z. symmetry. apply inject_Z_succ.
Qed.

Lemma filter_length_perm {A : Type} (f : A → bool) (l l' : list A) :
  l ≡ₚ l' → length (List.filter f l) = length (List.filter f l').
Proof.
  induction 1 as [|x l l' _ IH|x y l|l l' l'' _ IH1 _ IH2]; simpl.
  - done.
  - destruct (f x); simpl; by rewrite IH.
  - by destruct (f x), (f y).
  - by rewrite IH1.
Qed.

Lemma collection_fold_lookup (cardnames pool_names : list string) (zs : list Z)
    (i : nat) :
  foldl (fun v nm =>
           match list_index nm cardnames with
           | Some idx => alter (fun c => (c + 1)%Z) idx v
           | None => v
           end)
        zs pool_names !! i
  = (fun z =>
       (z + Z.of_nat
              (length (List.filter
                         (fun nm => bool_decide (list_index nm cardnames = Some i))
                         pool_names)))%Z)
      <$> zs !! i.
Proof.
  revert zs. induction pool_names as [|nm pool_names IH]; intros zs; simpl.
  - destruct (zs !! i); simpl; [|done]. f_equal. lia.
  - destruct (list_index nm cardnames) as [idx|] eqn:Hidx.
    + rewrite IH. destruct (decide (idx = i)) as [->|Hne].
      * rewrite bool_decide_eq_true_2 by done.
        rewrite list_lookup_alter_eq. destruct (zs !! i); simpl; [|done].
        f_equal. lia.
      * rewrite bool_decide_eq_false_2 by congruence.
        by rewrite list_lookup_alter_ne.
    + rewrite IH. by rewrite bool_decide_eq_false_2.
Qed.

Lemma list_index_lookup (x : string) (l : list string) (i : nat) :
  list_index x l = Some i → l !! i = Some x.
Proof.
  revert i. induction l as [|y l IH]; intros i; simpl; [done|].
  case_bool_decide as Hy; [by intros [= <-]; subst|].
  destruct (list_index x l) as [j|]; simpl; [|done].
  intros [= <-]. by apply IH.
Qed.

Lemma list_index_NoDup (x : string) (l : list string) (i : nat) :
  NoDup l → l !! i = Some x → list_index x l = Some i.
Proof.
  intros Hnd Hi. destruct (list_index x l) as [j|] eqn:Hj.
  - f_equal. apply list_index_lookup in Hj.
    exact (NoDup_lookup _ _ _ _ Hnd Hj Hi).
  - exfalso. clear Hnd. revert i Hi Hj.
    induction l as [|y l IH]; intros i Hi Hj; simpl in *; [done|].
    case_bool_decide as Hy; [done|].
    destruct (list_index x l) eqn:E; [done|].
    destruct i as [|i]; simpl in Hi; [congruence|]. by apply (IH i).
Qed.

(** X20: the collection vector has one entry per vocabulary position; the
    entry at a position counts the names of the pool whose first position
    in the vocabulary it is, so that a name outside the vocabulary counts
    nowhere and, in a vocabulary without repeated names, the entry of a
    name is the number of times the name occurs in the pool; and the vector
    does not depend on the order of the pool. *)
Theorem collection_vector_counts (cardnames pool_names : list string) :
  length (collection_vector_of cardnames pool_names) = length cardnames
  ∧ (∀ i, (i < length cardnames)%nat →
       collection_vector_of cardnames pool_names !! i
       = Some (inject_Z
                 (Z.of_nat
                    (length (List.filter
                               (fun nm =>
                                  bool_decide (list_index nm cardnames = Some i))
                               pool_names)))))
  ∧ (∀ i nm, NoDup cardnames → cardnames !! i = Some nm →
       collection_vector_of cardnames pool_names !! i
       = Some (inject_Z
                 (Z.of_nat
                    (length (List.filter (fun x => bool_decide (x = nm))
                               pool_names)))))
  ∧ (∀ pool_names', pool_names ≡ₚ pool_names' →
       collection_vector_of cardnames pool_names'
       = collection_vector_of cardnames pool_names).
Proof.
  assert (Hvec : ∀ pool,
    collection_vector_of cardnames pool
    = inject_Z
        <$> foldl (fun v nm =>
                     match list_index nm cardnames with
                     | Some idx => alter (fun c => (c + 1)%Z) idx v
                     | None => v
                     end)
                  (replicate (length cardnames) 0%Z) pool).
  { intros pool. unfold collection_vector_of.
    rewrite <- collection_fold_Z. by rewrite fmap_replicate. }
  assert (Hentry : ∀ pool i, (i < length cardnames)%nat →
    collection_vector_of cardnames pool !! i
    = Some (inject_Z
              (Z.of_nat
                 (length (List.filter
                            (fun nm =>
                               bool_decide (list_index nm cardnames = Some i))
                            pool))))).
  { intros pool i Hi. rewrite Hvec, list_lookup_fmap, collection_fold_lookup.
    rewrite lookup_replicate_2 by done. done. }
  assert (Hlen : ∀ pool,
    length (collection_vector_of cardnames pool) = length cardnames).
  { intros pool. rewrite Hvec, length_fmap.
    rewrite (foldl_alter_length_index cardnames). apply length_replicate. }
  split_and!; [apply Hlen|apply Hentry| |].
  - intros i nm Hnd Hi. rewrite Hentry by (by apply lookup_lt_Some in Hi).
    do 4 f_equal. apply List.filter_ext. intros x.
    apply bool_decide_ext. split.
    + intros Hx%list_index_lookup. congruence.
    + intros ->. by apply list_index_NoDup.
  - intros pool' Hperm. apply list_eq. intros i.
    destruct (decide (i < length cardnames)%nat) as [Hi|Hi].
    + rewrite !Hentry by done. do 3 f_equal.
      apply filter_length_perm. by apply Permutation_sym.
    + rewrite !lookup_ge_None_2; [done|rewrite Hlen; lia|rewrite Hlen; lia].
Qed.

Lemma collection_vector_counts_witness :
  collection_vector_of ["Opt"; "Shock"] ["Shock"; "Nope"; "Shock"] !! 1%nat
  = Some (inject_Z
            (Z.of_nat
               (length (List.filter (fun x => bool_decide (x = "Shock"))
                          ["Shock"; "Nope"; "Shock"]))))
  ∧ collection_vector_of ["Opt"; "Shock"] ["Nope"; "Shock"; "Shock"]
    = collection_vector_of ["Opt"; "Shock"] ["Shock"; "Nope"; "Shock"].
Proof.
  destruct (collection_vector_counts ["Opt"; "Shock"] ["Shock"; "Nope"; "Shock"])
    as (_ & _ & Hcount & Hperm).
  split.
  - apply (Hcount 1%nat "Shock"); [|reflexivity].
    apply (bool_decide_unpack _). vm_compute. exact I.
  - apply Hperm. apply perm_swap.
Defined.

(** *** The calculator *)

Section CalculatorMore.
Context {Session : Type} (world : World Session).

Lemma build_ratings_short (names : list string) (ratings : list Q) (k : nat)
    (acc : gmap string Q) :
  (k ≤ length ratings)%nat → (length ratings < k + length names)%nat →
  ∃ e, build_ratings (zip (seq k (length names)) names) ratings acc = inl e.
Proof.
  revert k acc.
  induction names as [|nm names IH]; intros k acc Hk Hlen; simpl in *.
  - lia.
  - destruct (ratings !! k) as [r|] eqn:Hr; [|by eexists].
    apply lookup_lt_Some in Hr. apply IH; lia.
Qed.

(** X21: when the inference run raises, or yields fewer scores than the
    vocabulary has names, [compute_ratings] returns the empty mapping and
    leaves the current ratings, the current set and the current mode as
    they were: [get_rating] goes on answering from the ratings of the last
    successful run.  The session and the vocabulary stay cached. *)
Theorem failed_inference_keeps_ratings (pool_names : list string)
    (set_code mode : string) (self : MLRatingCalculator Session)
    (session : Session) (mgr mgr' : MLModelManager Session)
    (cardnames : list string) :
  ONNX_AVAILABLE world = true →
  get_model world set_code mode (model_manager self)
  = (inr (Some session), mgr) →
  get_cardnames world set_code mgr = (inr (Some cardnames), mgr') →
  (∃ e, session_run world session (collection_vector_of cardnames pool_names)
          (replicate (length cardnames) 1%Q) = inl e)
  ∨ (∃ raw_scores,
       session_run world session (collection_vector_of cardnames pool_names)
         (replicate (length cardnames) 1%Q) = inr raw_scores
       ∧ (length raw_scores < length cardnames)%nat) →
  ∃ self',
    compute_ratings world pool_names set_code mode self = (inr ∅, self')
    ∧ model_manager self' = mgr'
    ∧ _current_ratings self' = _current_ratings self
    ∧ _current_set self' = _current_set self
    ∧ _current_mode self' = _current_mode self
    ∧ ∀ nm, get_rating nm self' = get_rating nm self.
Proof.
  intros Honnx Hmodel Hnames Hfail.
  rewrite compute_ratings_unfold, Honnx, Hmodel, Hnames. cbv zeta.
  simpl negb. cbv iota.
  destruct Hfail as [[e Hrun]|(raw_scores & Hrun & Hshort)]; rewrite Hrun.
  - eexists. by split_and!.
  - destruct (build_ratings_short cardnames (normalize world raw_scores) 0 ∅)
      as [e He]; [lia|rewrite normalize_length; lia|].
    unfold enumerate. rewrite He. eexists. by split_and!.
Qed.

Lemma build_ratings_frame (names : list string) (ratings : list Q) (k : nat)
    (acc res : gmap string Q) (nm : string) :
  build_ratings (zip (seq k (length names)) names) ratings acc = inr res →
  nm ∉ names → res !! nm = acc !! nm.
Proof.
  revert k acc. induction names as [|nm0 names IH]; intros k acc; simpl.
  - by intros [= <-].
  - destruct (ratings !! k) as [r|]; [|done]. intros Hres Hnm.
    rewrite (IH _ _ Hres) by set_solver.
    apply lookup_insert_ne. set_solver.
Qed.

Lemma build_ratings_last (names : list string) (ratings : list Q) (k : nat)
    (acc res : gmap string Q) (nm : string) (i : nat) (r : Q) :
  build_ratings (zip (seq k (length names)) names) ratings acc = inr res →
  names !! i = Some nm → nm ∉ drop (S i) names →
  ratings !! (k + i)%nat = Some r →
  res !! nm = Some (round1 r).
Proof.
  revert k acc i. induction names as [|nm0 names IH]; intros k acc i; simpl;
    [done|].
  destruct (ratings !! k) as [r0|] eqn:Hr0; [|done]. intros Hres Hi Hlast Hr.
  destruct i as [|i]; simpl in *.
  - injection Hi as ->. rewrite Nat.add_0_r in Hr.
    rewrite (build_ratings_frame _ _ _ _ _ _ Hres) by (by rewrite drop_0 in Hlast).
    rewrite lookup_insert_eq. congruence.
  - apply (IH (S k) _ i Hres Hi Hlast).
    by replace (S k + i)%nat with (k + S i)%nat by lia.
Qed.

(** X22: after a successful run the calculator answers from the new
    mapping: [get_rating] is the lookup in the returned mapping, it knows
    exactly the names of the vocabulary, a name that occurs several times in
    the vocabulary has the rounded score of its last position,
    [has_ratings] holds exactly when the vocabulary is not empty, and the
    current set and mode are those of the call. *)
Theorem successful_run_sets_current (pool_names : list string)
    (set_code mode : string) (self : MLRatingCalculator Session)
    (session : Session) (mgr mgr' : MLModelManager Session)
    (cardnames : list string) (raw_scores : list Q) :
  ONNX_AVAILABLE world = true →
  get_model world set_code mode (model_manager self)
  = (inr (Some session), mgr) →
  get_cardnames world set_code mgr = (inr (Some cardnames), mgr') →
  session_run world session (collection_vector_of cardnames pool_names)
    (replicate (length cardnames) 1%Q) = inr raw_scores →
  (length cardnames ≤ length raw_scores)%nat →
  ∃ result self',
    compute_ratings world pool_names set_code mode self = (inr result, self')
    ∧ (∀ nm, get_rating nm self' = result !! nm)
    ∧ (∀ nm, is_Some (get_rating nm self') ↔ nm ∈ cardnames)
    ∧ (∀ i nm r, cardnames !! i = Some nm → nm ∉ drop (S i) cardnames →
         normalize world raw_scores !! i = Some r →
         get_rating nm self' = Some (round1 r))
    ∧ (has_ratings self' = true ↔ cardnames ≠ [])
    ∧ _current_set self' = set_code
    ∧ _current_mode self' = mode.
Proof.
  intros Honnx Hmodel Hnames Hrun Hlen.
  rewrite compute_ratings_unfold, Honnx, Hmodel, Hnames. cbv zeta.
  rewrite Hrun. simpl negb. cbv iota.
  destruct (build_ratings_spec cardnames (normalize world raw_scores) 0 ∅)
    as (result & Hbuild & Hdom & _).
  { rewrite normalize_length. lia. }
  unfold enumerate. rewrite Hbuild.
  assert (Hdom' : dom result = list_to_set cardnames)
    by (rewrite Hdom, dom_empty_L; set_solver).
  eexists _, _. split; [done|]. unfold get_rating, has_ratings. simpl.
  split_and!; try done.
  - intros nm. rewrite <- elem_of_dom, Hdom'. set_solver.
  - intros i nm r Hi Hlast Hr.
    by apply (build_ratings_last _ _ _ _ _ _ i r Hbuild).
  - rewrite bool_decide_eq_true. rewrite <- size_dom, Hdom'.
    destruct cardnames as [|nm0 names].
    + rewrite list_to_set_nil, size_empty. split; [lia|done].
    + split; [done|]. intros _. rewrite list_to_set_cons.
      apply Nat.neq_0_lt_0. apply size_non_empty_iff. set_solver.
Qed.

End CalculatorMore.

Lemma failed_inference_keeps_ratings_witness :
  let world :=
    {| ONNX_AVAILABLE := true;
       os_path_join := fun parts => String.concat "/" parts;
       os_path_exists := fun _ => true;
       InferenceSession := fun _ => inr tt;
       read_csv_names := fun _ => inr ["Opt"; "Shock"];
       session_run := fun _ _ _ => inr [1%Q];
       np_mean := Example.mean; np_std := Example.variance;
       logistic := fun _ _ x => x |} in
  ∃ self',
    compute_ratings world [] "TST" "Premier" Example.calculator = (inr ∅, self')
    ∧ _current_ratings self' = _current_ratings Example.calculator.
Proof.
  intros world.
  destruct (failed_inference_keeps_ratings world [] "TST" "Premier"
              Example.calculator tt
              (set_sessions (<["TST_Premier" := tt]> ∅) Example.manager)
              (set_cardnames (<["TST" := ["Opt"; "Shock"]]> ∅)
                 (set_sessions (<["TST_Premier" := tt]> ∅) Example.manager))
              ["Opt"; "Shock"])
    as (self' & Hrun & _ & Hcur & _).
  - reflexivity.
  - reflexivity.
  - reflexivity.
  - right. exists [1%Q]. split; [reflexivity|simpl; lia].
  - exists self'. by split.
Defined.

Lemma successful_run_sets_current_witness :
  ∃ result self',
    compute_ratings Example.world ["Opt"] "TST" "Premier" Example.calculator
    = (inr result, self')
    ∧ (∀ nm, get_rating nm self' = result !! nm)
    ∧ (has_ratings self' = true ↔ ["Opt"; "Shock"; "Opt"] ≠ [])
    ∧ _current_set self' = "TST"
    ∧ _current_mode self' = "Premier".
Proof.
  destruct (successful_run_sets_current Example.world ["Opt"] "TST" "Premier"
              Example.calculator tt
              (set_sessions (<["TST_Premier" := tt]> ∅) Example.manager)
              (set_cardnames (<["TST" := ["Opt"; "Shock"; "Opt"]]> ∅)
                 (set_sessions (<["TST_Premier" := tt]> ∅) Example.manager))
              ["Opt"; "Shock"; "Opt"] [7 # 2; 7 # 2; 7 # 2]%Q)
    as (result & self' & Hrun & Hget & _ & _ & Hhas & Hset & Hmode).
  - reflexivity.
  - vm_compute. reflexivity.
  - vm_compute. reflexivity.
  - vm_compute. reflexivity.
  - simpl. lia.
  - exists result, self'. by split_and!.
Defined.

(** The example world with the Premier artifact replaced by a PickTwo one. *)
Lemma premier_falls_back_to_picktwo_witness :
  let world :=
    {| ONNX_AVAILABLE := true;
       os_path_join := fun parts => String.concat "/" parts;
       os_path_exists := fun path =>
         bool_decide (path = "models/onnx/TST_PickTwo.onnx");
       InferenceSession := fun _ => inr tt;
       read_csv_names := fun _ => inr ["Opt"];
       session_run := fun _ _ _ => inr [];
       np_mean := Example.mean; np_std := Example.variance;
       logistic := fun _ _ x => x |} in
  get_model world "TST" "Premier" Example.manager
  = (inr (Some tt), set_sessions (<["TST_Premier" := tt]> ∅) Example.manager)
  ∧ get_model world "TST" "Sealed" Example.manager = (inr None, Example.manager).
Proof.
  intros world. split.
  - apply (proj1 (premier_falls_back_to_picktwo world "TST" "Premier"
                    Example.manager eq_refl eq_refl) eq_refl eq_refl eq_refl
                 tt eq_refl).
  - apply (proj1 (proj2 (premier_falls_back_to_picktwo world "TST" "Sealed"
                           Example.manager eq_refl eq_refl))).
    + discriminate.
    + reflexivity.
Defined.

Lemma get_cardnames_cache_witness :
  get_cardnames Example.world "TST"
    (set_cardnames (<["TST" := ["Opt"; "Shock"; "Opt"]]> ∅) Example.manager)
  = (inr (Some ["Opt"; "Shock"; "Opt"]),
     set_cardnames (<["TST" := ["Opt"; "Shock"; "Opt"]]> ∅) Example.manager).
Proof.
  apply (get_cardnames_cache Example.world Example.world "TST" Example.manager
           (set_cardnames (<["TST" := ["Opt"; "Shock"; "Opt"]]> ∅) Example.manager)
           (Some ["Opt"; "Shock"; "Opt"])).
  vm_compute. reflexivity.
Defined.

Lemma set_model_directory_clears_witness :
  get_model Example.world "TST" "Premier"
    (set_model_directory "elsewhere"
       (set_sessions (<["TST_Premier" := tt]> ∅) Example.manager))
  = (inr None, set_model_directory "elsewhere"
                 (set_sessions (<["TST_Premier" := tt]> ∅) Example.manager))
  ∧ get_cardnames Example.world "TST"
      (set_model_directory "elsewhere"
         (set_sessions (<["TST_Premier" := tt]> ∅) Example.manager))
    = (inr None, set_model_directory "elsewhere"
                   (set_sessions (<["TST_Premier" := tt]> ∅) Example.manager)).
Proof.
  apply (set_model_directory_clears Example.world "elsewhere" "TST" "Premier").
  - intros m. reflexivity.
  - reflexivity.
Defined.

End RatingMore.

Module ModelUpdateFacts.
Import Rating ModelUpdate.

(** *** Suffixes *)

Lemma string_length_app (p s : string) :
  String.length (p ++ s) = (String.length p + String.length s)%nat.
Proof. induction p as [|c p IH]; simpl; [done|]. by rewrite IH. Qed.

Lemma substring_whole (s : string) : substring 0 (String.length s) s = s.
Proof. induction s as [|c s IH]; simpl; [done|]. by rewrite IH. Qed.

Lemma substring_app_suffix (p s : string) :
  substring (String.length p) (String.length s) (p ++ s) = s.
Proof. induction p as [|c p IH]; simpl; [apply substring_whole|done]. Qed.

Lemma substring_split (n : nat) (s : string) :
  (n ≤ String.length s)%nat →
  s = substring 0 n s ++ substring n (String.length s - n) s.
Proof.
  revert s. induction n as [|n IH]; intros s Hn; simpl.
  - rewrite Nat.sub_0_r. destruct s; simpl; [done|].
    by rewrite substring_whole.
  - destruct s as [|c s]; simpl in *; [lia|].
    change (String c s
            = String c (substring 0 n s
                        ++ substring n (String.length s - n) s)).
    f_equal. apply IH. lia.
Qed.

Lemma endswith_spec (s suffix : string) :
  endswith s suffix = true ↔ ∃ stem, s = stem ++ suffix.
Proof.
  unfold endswith. rewrite andb_true_iff, Nat.leb_le, String.eqb_eq. split.
  - intros [Hlen Hsub].
    exists (substring 0 (String.length s - String.length suffix) s).
    pose proof (substring_split (String.length s - String.length suffix) s)
      as Hsplit.
    replace (String.length s - (String.length s - String.length suffix))%nat
      with (String.length suffix) in Hsplit by lia.
    rewrite Hsub in Hsplit. apply Hsplit. lia.
  - intros [stem ->]. rewrite string_length_app. split; [lia|].
    replace (String.length stem + String.length suffix - String.length suffix)%nat
      with (String.length stem) by lia.
    apply substring_app_suffix.
Qed.

(** *** The update check *)

(** An asset the loop steps over: it has a name, and the name does not end
    in [.zip]. *)
Lemma find_zip_asset_skip (tag : string) (pre rest : list Asset) :
  Forall (fun a => ∃ nm, asset_name a = Some nm ∧ endswith nm ".zip" = false)
    pre →
  find_zip_asset tag (pre ++ rest) = find_zip_asset tag rest.
Proof.
  induction 1 as [|a pre (nm & Hnm & Hzip) _ IH]; simpl; [done|].
  by rewrite Hnm, Hzip.
Qed.

Lemma find_zip_asset_Some (tag : string) (release_assets : list Asset)
    (found : string * string) :
  find_zip_asset tag release_assets = inr (Some found) →
  ∃ pre asset post nm url,
    release_assets = (pre ++ asset :: post)%list
    ∧ Forall (fun a => ∃ nm, asset_name a = Some nm
                             ∧ endswith nm ".zip" = false) pre
    ∧ asset_name asset = Some nm ∧ endswith nm ".zip" = true
    ∧ browser_download_url asset = Some url
    ∧ found = (tag, url).
Proof.
  induction release_assets as [|a l IH]; simpl; [done|].
  destruct (asset_name a) as [nm|] eqn:Hnm; [|done].
  destruct (endswith nm ".zip") eqn:Hzip.
  - destruct (browser_download_url a) as [url|] eqn:Hurl; [|done].
    intros [= <-]. exists [], a, l, nm, url. by split_and!.
  - intros Hrest.
    destruct (IH Hrest) as (pre & asset & post & nm' & url & -> & Hpre & H).
    exists (a :: pre), asset, post, nm', url. split_and!; try done;
      try apply H.
    constructor; [by exists nm|done].
Qed.

(** X23: [check_for_update] never raises, and it announces an update,
    [(tag, url)], exactly when the release document was fetched, its tag is
    not empty and differs from the installed tag, and [url] is the download
    address of the first asset whose name ends in [.zip], every asset
    before it having a name.  In every other case it returns [None]: a
    failed request, a missing or unchanged tag, no zip asset, an asset
    without a name before the zip asset, or a zip asset without a download
    address. *)
Theorem check_for_update_spec (fetched : Exn + Release) (current_tag : string)
    (tag url : string) :
  check_for_update fetched current_tag = Some (tag, url)
  ↔ ∃ release pre asset post stem,
      fetched = inr release
      ∧ tag_name release = Some tag
      ∧ tag ≠ "" ∧ tag ≠ current_tag
      ∧ assets release = Some (pre ++ asset :: post)%list
      ∧ Forall (fun a => ∃ nm, asset_name a = Some nm
                               ∧ ∀ stem', nm ≠ stem' ++ ".zip") pre
      ∧ asset_name asset = Some (stem ++ ".zip")
      ∧ browser_download_url asset = Some url.
Proof.
  assert (Hno : ∀ nm, endswith nm ".zip" = false ↔ ∀ stem', nm ≠ stem' ++ ".zip").
  { intros nm. rewrite <- not_true_iff_false, endswith_spec. naive_solver. }
  unfold check_for_update. split.
  - destruct fetched as [e|release]; [done|].
    destruct (tag_name release) as [t|] eqn:Htag; simpl; [|done].
    case_bool_decide as Hempty; simpl; [done|].
    case_bool_decide as Hsame; simpl; [done|].
    destruct (find_zip_asset t (default [] (assets release))) as [e|[found|]]
      eqn:Hfind; try done.
    intros [= ->].
    apply find_zip_asset_Some in Hfind
      as (pre & asset & post & nm & url' & Hassets & Hpre & Hnm & Hzip & Hurl & Heq).
    injection Heq as -> ->.
    apply endswith_spec in Hzip as [stem ->].
    exists release, pre, asset, post, stem.
    destruct (assets release) as [l|]; simpl in Hassets;
      [|by destruct pre]. subst l. split_and!; try done.
    eapply Forall_impl; [exact Hpre|]. intros a (nm & Ha & Hn).
    exists nm. split; [done|]. by apply Hno.
  - intros (release & pre & asset & post & stem & -> & Htag & Hempty & Hsame
            & Hassets & Hpre & Hnm & Hurl).
    rewrite Htag, Hassets. simpl.
    rewrite !bool_decide_eq_false_2 by done. simpl.
    rewrite find_zip_asset_skip.
    + simpl. rewrite Hnm.
      assert (endswith (stem ++ ".zip") ".zip" = true) as ->
        by (apply endswith_spec; by exists stem).
      by rewrite Hurl.
    + eapply Forall_impl; [exact Hpre|]. intros a (nm & Ha & Hn).
      exists nm. split; [done|]. by apply Hno.
Qed.

(** X24: an installed tag equal to the tag of the release means no update,
    whatever assets the release has; and an asset without a name hides every
    zip asset that comes after it: the check returns [None] although a zip
    asset is there. *)
Theorem check_for_update_edges (release : Release) (current_tag : string) :
  (tag_name release = Some current_tag →
   check_for_update (inr release) current_tag = None)
  ∧ (∀ pre asset post,
       assets release = Some (pre ++ asset :: post)%list →
       Forall (fun a => ∃ nm, asset_name a = Some nm
                              ∧ endswith nm ".zip" = false) pre →
       asset_name asset = None →
       check_for_update (inr release) current_tag = None).
Proof.
  unfold check_for_update. split.
  - intros ->. simpl. rewrite (bool_decide_eq_true_2 (current_tag = current_tag))
      by done. by rewrite orb_true_r.
  - intros pre asset post Hassets Hpre Hnone. rewrite Hassets. simpl.
    destruct (_ || _); [done|].
    rewrite find_zip_asset_skip by done. simpl. by rewrite Hnone.
Qed.

Lemma check_for_update_edges_witness :
  check_for_update
    (inr {| tag_name := Some "models-2026-02-19";
            assets := Some [ {| asset_name := None;
                                browser_download_url := None |};
                             {| asset_name := Some "models.zip";
                                browser_download_url := Some "https://x/models" |} ] |})
    "models-2026-01-01"
  = None.
Proof.
  apply (proj2 (check_for_update_edges _ "models-2026-01-01") []
           {| asset_name := None; browser_download_url := None |}
           [ {| asset_name := Some "models.zip";
                browser_download_url := Some "https://x/models" |} ]).
  - reflexivity.
  - constructor.
  - reflexivity.
Defined.

End ModelUpdateFacts.
